(** * Text to vector outlines: glyph contour decoding, glyph positioning,
      typographic substitution and font faces.

    A shallow embedding of the Go sources (package canvas): [GlyphPath],
    [StringPath], [substituteTypography] and its helpers, [FontFace.Equals]
    and [FontFace.ToPath], followed by the properties established for them. *)

From Stdlib Require Import ZArith NArith List Bool Lia Ascii String.
From Stdlib Require Floats.PrimFloat Numbers.Cyclic.Int63.Uint63.
Import ListNotations.

Local Open Scope Z_scope.

(** ** Go values *)

(** Fixed-width integers are carried by [Z]; the wrap-around of each width is
    written out. *)
Definition uint16 (z : Z) : Z := z mod 65536.
Definition int16 (z : Z) : Z := (z + 32768) mod 65536 - 32768.
Definition int32 (z : Z) : Z := (z + 2147483648) mod 4294967296 - 2147483648.

(** A Go [error] value is identified with its message; [nil] is [None]. *)
Definition error := string.

(** Option bind: [None] stands for a call that does not return normally
    (index out of range, or a loop that cannot exit). *)
Notation "x <- a ;; b" :=
  (match a with Some x => b | None => None end)
  (at level 61, a at next level, right associativity).

(** [l[i]] for an unsigned index; out of range is a run-time panic. *)
Definition index {A} (l : list A) (i : Z) : option A :=
  if i <? 0 then None else nth_error l (Z.to_nat i).

(** The arithmetic the sources use but do not define.  [float64] with its
    operators is IEEE binary64 as the Go compiler implements it; the theorems
    below hold whatever the rounding is.  [coord_add] is [+] on the element
    type of [XCoordinates] and [YCoordinates]: that integer type is declared
    with the contour in package font, outside the sources at hand. *)
Class Numeric := {
  float64 : Type;
  fadd : float64 -> float64 -> float64;
  fsub : float64 -> float64 -> float64;
  fmul : float64 -> float64 -> float64;
  fdiv : float64 -> float64 -> float64;
  fneg : float64 -> float64;
  feqb : float64 -> float64 -> bool;
  float64_of_int : Z -> float64;
  f_zero : float64;
  f_two : float64;
  coord_add : Z -> Z -> Z
}.

Declare Scope f64_scope.
Delimit Scope f64_scope with f64.
Infix "+" := fadd : f64_scope.
Infix "-" := fsub : f64_scope.
Infix "*" := fmul : f64_scope.
Infix "/" := fdiv : f64_scope.

(** ** The vector path sink *)

Section Sink.
Context {num : Numeric}.

Record Point := { X : float64; Y : float64 }.

(** Modelled from the spec: the path builder (type Path with MoveTo, LineTo,
    QuadTo, CubeTo, Close, StartPos and Append) is an external output sink
    that is not among the sources.  A path is the sequence of operations the
    sink has accepted, in order. *)
Inductive cmd :=
| MoveTo (x y : float64)
| LineTo (x y : float64)
| QuadTo (cx cy x y : float64)
| CubeTo (cx1 cy1 cx2 cy2 x y : float64)
| Close.

Definition Path := list cmd.

(** Modelled from the spec: StartPos is the start of the current sub-path,
    the position a Close connects back to: the target of the most recent
    MoveTo, the zero point while there is none. *)
Fixpoint StartPos_from (start : Point) (p : Path) : Point :=
  match p with
  | [] => start
  | MoveTo x y :: q => StartPos_from {| X := x; Y := y |} q
  | _ :: q => StartPos_from start q
  end.

Definition StartPos (p : Path) : Point :=
  StartPos_from {| X := f_zero; Y := f_zero |} p.

(** Modelled from the spec: Append puts the operations of the second path
    after those of the first. *)
Definition Append (p q : Path) : Path := p ++ q.

End Sink.

(** ** GlyphPath *)

(** The contour data of one glyph, as [GlyphPath] reads it.  [EndPoints] holds
    uint16 values: the source compares them with its [uint16] counter. *)
Record glyfContour := {
  EndPoints : list Z;
  OnCurve : list bool;
  XCoordinates : list Z;
  YCoordinates : list Z
}.

(** The part of the parsed font the functions consult. *)
Record SFNT := {
  IsTrueType : bool;
  UnitsPerEm : Z;
  GlyphContour : Z -> option glyfContour * option error
}.

Section Glyph.
Context {num : Numeric}.
Local Open Scope f64_scope.

(** The variables of the loop over the points of one contour. *)
Record decoder := {
  p : Path;
  first : bool;
  firstOff : bool;
  prevOff : bool
}.

Definition emit (c : cmd) (d : decoder) : decoder :=
  {| p := p d ++ [c]; first := first d; firstOff := firstOff d;
     prevOff := prevOff d |}.

Section Contour.
Variable contour : glyfContour.
Variables f x y : float64.

(** [x + float64(XCoordinates[i])*f] and its y counterpart. *)
Definition px (i : Z) : option float64 :=
  c <- index (XCoordinates contour) i ;; Some (x + float64_of_int c * f).
Definition py (i : Z) : option float64 :=
  c <- index (YCoordinates contour) i ;; Some (y + float64_of_int c * f).

(** [xMid := float64(XCoordinates[a]+XCoordinates[b]) / 2.0]. *)
Definition xMid (a b : Z) : option float64 :=
  ca <- index (XCoordinates contour) a ;;
  cb <- index (XCoordinates contour) b ;;
  Some (float64_of_int (coord_add ca cb) / f_two).
Definition yMid (a b : Z) : option float64 :=
  ca <- index (YCoordinates contour) a ;;
  cb <- index (YCoordinates contour) b ;;
  Some (float64_of_int (coord_add ca cb) / f_two).

(** The body of [for ; i <= endPoint; i++]. *)
Definition point (i : Z) (d : decoder) : option decoder :=
  on <- index (OnCurve contour) i ;;
  if first d then
    if on then
      a <- px i ;; b <- py i ;;
      Some {| p := p d ++ [MoveTo a b]; first := false;
              firstOff := firstOff d; prevOff := prevOff d |}
    else if negb (prevOff d) then
      Some {| p := p d; first := first d; firstOff := true; prevOff := true |}
    else
      xm <- xMid (uint16 (i - 1)) i ;; ym <- yMid (uint16 (i - 1)) i ;;
      Some (emit (MoveTo (x + xm * f) (y + ym * f)) d)
  else if negb (prevOff d) then
    if on then
      a <- px i ;; b <- py i ;; Some (emit (LineTo a b) d)
    else
      Some {| p := p d; first := first d; firstOff := firstOff d;
              prevOff := true |}
  else
    if on then
      ca <- px (uint16 (i - 1)) ;; cb <- py (uint16 (i - 1)) ;;
      a <- px i ;; b <- py i ;;
      Some {| p := p d ++ [QuadTo ca cb a b]; first := first d;
              firstOff := firstOff d; prevOff := false |}
    else
      xm <- xMid (uint16 (i - 1)) i ;; ym <- yMid (uint16 (i - 1)) i ;;
      ca <- px (uint16 (i - 1)) ;; cb <- py (uint16 (i - 1)) ;;
      Some (emit (QuadTo ca cb (x + xm * f) (y + ym * f)) d).

(** [n] rounds of the loop body, from index [i]. *)
Fixpoint points (n : nat) (i : Z) (d : decoder) : option (Z * decoder) :=
  match n with
  | O => Some (i, d)
  | S k => d' <- point i d ;; points k (i + 1)%Z d'
  end.

(** [for ; i <= endPoint; i++].  The counter is a [uint16]: for
    [endPoint = 65535] the condition can never turn false, so the loop ends
    in an index panic or runs forever, and there is no normal exit. *)
Definition scan_points (i endPoint : Z) (d : decoder)
  : option (Z * decoder) :=
  if (endPoint <? i)%Z then Some (i, d)
  else if (endPoint =? 65535)%Z then None
  else points (Z.to_nat (endPoint - i + 1)) i d.

(** What follows the loop: the closing curve, then [p.Close()]. *)
Definition close_contour (j i : Z) (d : decoder) : option Path :=
  let start := StartPos (p d) in
  if firstOff d then
    if prevOff d then
      xm <- xMid (uint16 (i - 1)) j ;; ym <- yMid (uint16 (i - 1)) j ;;
      Some (p d ++ [QuadTo (x + xm * f) (y + ym * f) (X start) (Y start)]
                ++ [Close])
    else
      ca <- px (uint16 (i - 1)) ;; cb <- py (uint16 (i - 1)) ;;
      Some (p d ++ [QuadTo ca cb (X start) (Y start)] ++ [Close])
  else if prevOff d then
    ca <- px (uint16 (i - 1)) ;; cb <- py (uint16 (i - 1)) ;;
    Some (p d ++ [QuadTo ca cb (X start) (Y start)] ++ [Close])
  else Some (p d ++ [Close]).

(** One round of [for _, endPoint := range contour.EndPoints]: the outline
    so far and the running point index go in and come out. *)
Definition decode_contour (endPoint : Z) (s : Path * Z) : option (Path * Z) :=
  let j := snd s in
  r <- scan_points j endPoint
         {| p := fst s; first := true; firstOff := false; prevOff := false |} ;;
  q <- close_contour j (fst r) (snd r) ;;
  Some (q, fst r).

Fixpoint decode_contours (ends : list Z) (s : Path * Z)
  : option (Path * Z) :=
  match ends with
  | [] => Some s
  | e :: rest => s' <- decode_contour e s ;; decode_contours rest s'
  end.

End Contour.

(** [GlyphPath] returns a path pointer ([None] is nil) and an error. *)
Definition GlyphPath (sfnt : SFNT) (glyphID : Z) (size x y : float64)
  : option (option Path * option error) :=
  if IsTrueType sfnt then
    match GlyphContour sfnt glyphID with
    | (_, Some err) => Some (None, Some err)
    | (None, None) => Some (None, None)
    | (Some contour, None) =>
        let f := size / float64_of_int (UnitsPerEm sfnt) in
        r <- decode_contours contour f x y (EndPoints contour) ([], 0%Z) ;;
        Some (Some (fst r), None)
    end
  else Some (None, Some "CFF not supported"%string).

End Glyph.

(** ** StringPath *)

(** A positioned glyph of the shaping package; the advances and offsets are
    [int32], the type of the pen they are added to. *)
Record Glyph := {
  ID : Z;
  XAdvance : Z;
  YAdvance : Z;
  XOffset : Z;
  YOffset : Z
}.

Section Positioner.
Context {num : Numeric}.
Local Open Scope f64_scope.

(** The shaping capability: [shaping.NewFont] on the font data, which may
    fail, and [Shape] of the font it returns, called with the fixed
    direction and script of the source. *)
Variable Text : Type.
Variable NewFont : SFNT -> option error.
Variable Shape : SFNT -> Text -> float64 -> list Glyph.

(** The variables of the loop over the glyphs. *)
Record pen := {
  outline : Path;
  pen_x : Z;
  pen_y : Z
}.

(** [for _, glyph := range glyphs]: the pen at the end, and the error that
    ended the loop early, if any. *)
Fixpoint place_glyphs (sfnt : SFNT) (size f : float64) (glyphs : list Glyph)
  (st : pen) : option (pen * option error) :=
  match glyphs with
  | [] => Some (st, None)
  | glyph :: rest =>
      r <- GlyphPath sfnt (ID glyph) size
             (float64_of_int (int32 (pen_x st + XOffset glyph)) * f)
             (float64_of_int (int32 (pen_y st + YOffset glyph)) * f) ;;
      match r with
      | (_, Some err) => Some (st, Some err)
      | (path, None) =>
          place_glyphs sfnt size f rest
            {| outline := match path with
                          | Some q => Append (outline st) q
                          | None => outline st
                          end;
               pen_x := int32 (pen_x st + XAdvance glyph);
               pen_y := int32 (pen_y st + YAdvance glyph) |}
      end
  end.

Definition StringPath (sfnt : SFNT) (text : Text) (size : float64)
  : option (option Path * option error) :=
  match NewFont sfnt with
  | Some err => Some (None, Some err)
  | None =>
      let f := size / float64_of_int (UnitsPerEm sfnt) in
      r <- place_glyphs sfnt size f (Shape sfnt text size)
             {| outline := []; pen_x := 0; pen_y := 0 |} ;;
      Some (Some (outline (fst r)), snd r)
  end.

End Positioner.

(** ** Strings and runes *)

(** A Go string is a sequence of bytes; a rune is an [int32] code point. *)
Definition gostring := list ascii.
Definition rune := Z.

Abbreviation len := (@List.length ascii).

Definition go (s : string) : gostring := list_ascii_of_string s.
Definition bytes (l : list Z) : gostring :=
  map (fun b => ascii_of_N (Z.to_N b)) l.
Definition byteval (c : ascii) : Z := Z.of_N (N_of_ascii c).

(** [s[k]] as a number, where the source has checked [k < len(s)]. *)
Definition byte_at (s : gostring) (k : nat) : Z := byteval (nth k s Ascii.zero).

(** [s[k] == c]. *)
Definition is_byte (s : gostring) (k : nat) (c : ascii) : bool :=
  match nth_error s k with
  | Some b => Ascii.eqb b c
  | None => false
  end.

(** *** unicode/utf8 (Go standard library) *)

Definition RuneError : rune := 0xFFFD.

(** The table [first]: information about the first byte of an encoding. *)
Definition utf8_first (b : Z) : Z :=
  if b <? 0x80 then 0xF0
  else if b <? 0xC2 then 0xF1
  else if b <? 0xE0 then 0x02
  else if b =? 0xE0 then 0x13
  else if b <? 0xED then 0x03
  else if b =? 0xED then 0x23
  else if b <? 0xF0 then 0x03
  else if b =? 0xF0 then 0x34
  else if b <? 0xF4 then 0x04
  else if b =? 0xF4 then 0x44
  else 0xF1.

(** The table [acceptRanges]: the range of a valid second byte. *)
Definition acceptRanges (k : Z) : Z * Z :=
  if k =? 0 then (0x80, 0xBF)
  else if k =? 1 then (0xA0, 0xBF)
  else if k =? 2 then (0x80, 0x9F)
  else if k =? 3 then (0x90, 0xBF)
  else if k =? 4 then (0x80, 0x8F)
  else (0, 0).

Definition DecodeRuneInString (s : gostring) : rune * nat :=
  let n := len s in
  if (n <? 1)%nat then (RuneError, 0%nat)
  else
    let s0 := byte_at s 0 in
    let x := utf8_first s0 in
    if 0xF0 <=? x then
      if x =? 0xF1 then (RuneError, 1%nat) else (s0, 1%nat)
    else
      let sz := Z.to_nat (Z.land x 7) in
      let accept := acceptRanges (Z.shiftr x 4) in
      if (n <? sz)%nat then (RuneError, 1%nat)
      else
        let s1 := byte_at s 1 in
        if (s1 <? fst accept) || (snd accept <? s1) then (RuneError, 1%nat)
        else if (sz <=? 2)%nat then
          (Z.lor (Z.shiftl (Z.land s0 0x1F) 6) (Z.land s1 0x3F), 2%nat)
        else
          let s2 := byte_at s 2 in
          if (s2 <? 0x80) || (0xBF <? s2) then (RuneError, 1%nat)
          else if (sz <=? 3)%nat then
            (Z.lor (Z.lor (Z.shiftl (Z.land s0 0x0F) 12)
                          (Z.shiftl (Z.land s1 0x3F) 6))
                   (Z.land s2 0x3F), 3%nat)
          else
            let s3 := byte_at s 3 in
            if (s3 <? 0x80) || (0xBF <? s3) then (RuneError, 1%nat)
            else
              (Z.lor (Z.lor (Z.lor (Z.shiftl (Z.land s0 0x07) 18)
                                   (Z.shiftl (Z.land s1 0x3F) 12))
                            (Z.shiftl (Z.land s2 0x3F) 6))
                     (Z.land s3 0x3F), 4%nat).

(** *** unicode.IsSpace (Go standard library): the White_Space property. *)
Definition IsSpace (r : rune) : bool :=
  if (0 <=? r) && (r <=? 0xFF) then
    ((0x09 <=? r) && (r <=? 0x0D)) || (r =? 0x20) || (r =? 0x85)
    || (r =? 0xA0)
  else
    (r =? 0x1680) || ((0x2000 <=? r) && (r <=? 0x200A)) || (r =? 0x2028)
    || (r =? 0x2029) || (r =? 0x202F) || (r =? 0x205F) || (r =? 0x3000).

(** ** Typographic substitution *)

Definition isspace (r : rune) : bool := IsSpace r.

(** The runes of the literal that [ispunct] ranges over: the ASCII
    punctuation, the double quote (34) in second place. *)
Definition punctuation : list rune :=
  33 :: 34 :: map byteval (go "#$%&'()*+,-./:;<=>?@[\]^_`{|}~").

Definition ispunct (r : rune) : bool :=
  existsb (fun punct => r =? punct) punctuation.

Definition isWordBoundary (r : rune) : bool :=
  (r =? 0) || isspace r || ispunct r.

(** [s[:i] + target + s[i+n:]]; every call site has checked
    [i+n <= len(s)]. *)
Definition stringReplace (s : gostring) (i n : nat) (target : gostring)
  : gostring * nat :=
  (firstn i s ++ target ++ skipn (i + n) s, len target).

(** The replacement characters, in UTF-8. *)
Definition ellipsis : gostring := bytes [0xE2; 0x80; 0xA6].      (* U+2026 *)
Definition em_dash : gostring := bytes [0xE2; 0x80; 0x94].       (* U+2014 *)
Definition en_dash : gostring := bytes [0xE2; 0x80; 0x93].       (* U+2013 *)
Definition copyright : gostring := bytes [0xC2; 0xA9].           (* U+00A9 *)
Definition registered : gostring := bytes [0xC2; 0xAE].          (* U+00AE *)
Definition trademark : gostring := bytes [0xE2; 0x84; 0xA2].     (* U+2122 *)
Definition left_double : gostring := bytes [0xE2; 0x80; 0x9C].   (* U+201C *)
Definition right_double : gostring := bytes [0xE2; 0x80; 0x9D].  (* U+201D *)
Definition left_single : gostring := bytes [0xE2; 0x80; 0x98].   (* U+2018 *)
Definition right_single : gostring := bytes [0xE2; 0x80; 0x99].  (* U+2019 *)
Definition one_half : gostring := bytes [0xC2; 0xBD].            (* U+00BD *)
Definition one_quarter : gostring := bytes [0xC2; 0xBC].         (* U+00BC *)
Definition three_quarters : gostring := bytes [0xC2; 0xBE].      (* U+00BE *)
Definition plus_minus : gostring := bytes [0xC2; 0xB1].          (* U+00B1 *)

Definition double_quote : ascii := "034"%char.
Definition single_quote : ascii := "039"%char.

(** The [switch] of [quoteReplace]: the new value of [*isOpen]. *)
Definition quote_direction (prev next : rune) (isOpen : bool) : bool :=
  if (prev =? 0) && (next =? 0) then negb isOpen
  else if isspace prev && (next =? 0) then true
  else if ispunct prev && (next =? 0) then false
  else if next =? 0 then false
  else if (prev =? 0) && isspace next then false
  else if isspace prev && isspace next then negb isOpen
  else if ispunct prev && isspace next then false
  else if isspace next then false
  else if (prev =? 0) && ispunct next then false
  else if isspace prev && ispunct next then true
  else if ispunct prev && ispunct next then negb isOpen
  else if ispunct next then false
  else if prev =? 0 then true
  else if isspace prev then true
  else if ispunct prev then true
  else false.

(** [quoteReplace] returns the new string and size, and the flag it was
    handed by pointer. *)
Definition quoteReplace (s : gostring) (i : nat) (prev quote next : rune)
  (isOpen : bool) : gostring * nat * bool :=
  let isOpen := quote_direction prev next isOpen in
  if quote =? byteval double_quote then
    if isOpen then (stringReplace s i 1 left_double, isOpen)
    else (stringReplace s i 1 right_double, isOpen)
  else if quote =? byteval single_quote then
    if isOpen then (stringReplace s i 1 left_single, isOpen)
    else (stringReplace s i 1 right_single, isOpen)
  else ((s, 1%nat), isOpen).

(** The variables of the scanning loop. *)
Record scanner := {
  scan_s : gostring;
  scan_i : nat;
  scan_size : nat;
  scan_r : rune;
  scan_inSingleQuote : bool;
  scan_inDoubleQuote : bool
}.

Inductive control := Break (st : scanner) | Continue (st : scanner).

(** The rune after position [k], zero at the end of the text. *)
Definition rune_at (s : gostring) (k : nat) : rune :=
  if (k <? len s)%nat then fst (DecodeRuneInString (skipn k s)) else 0.

(** One round of the [for] loop of [substituteTypography]. *)
Definition iteration (st : scanner) : control :=
  let rPrev := scan_r st in
  let i := (scan_i st + scan_size st)%nat in
  let s := scan_s st in
  let single := scan_inSingleQuote st in
  let double := scan_inDoubleQuote st in
  if (len s <=? i)%nat then
    Break {| scan_s := s; scan_i := i; scan_size := scan_size st;
             scan_r := rPrev; scan_inSingleQuote := single;
             scan_inDoubleQuote := double |}
  else
    let (r, size) := DecodeRuneInString (skipn i s) in
    let replaced (res : gostring * nat) :=
      Continue {| scan_s := fst res; scan_i := i; scan_size := snd res;
                  scan_r := r; scan_inSingleQuote := single;
                  scan_inDoubleQuote := double |} in
    if (i + 2 <? len s)%nat && is_byte s i "." && is_byte s (i + 1) "."
       && is_byte s (i + 2) "." then
      replaced (stringReplace s i 3 ellipsis)
    else if (i + 4 <? len s)%nat && is_byte s i "."
            && is_byte s (i + 1) " " && is_byte s (i + 2) "."
            && is_byte s (i + 3) " " && is_byte s (i + 4) "." then
      replaced (stringReplace s i 5 ellipsis)
    else if (i + 2 <? len s)%nat && is_byte s i "-"
            && is_byte s (i + 1) "-" && is_byte s (i + 2) "-" then
      replaced (stringReplace s i 3 em_dash)
    else if (i + 1 <? len s)%nat && is_byte s i "-"
            && is_byte s (i + 1) "-" then
      replaced (stringReplace s i 2 en_dash)
    else if (i + 2 <? len s)%nat && is_byte s i "("
            && is_byte s (i + 1) "c" && is_byte s (i + 2) ")" then
      replaced (stringReplace s i 3 copyright)
    else if (i + 2 <? len s)%nat && is_byte s i "("
            && is_byte s (i + 1) "r" && is_byte s (i + 2) ")" then
      replaced (stringReplace s i 3 registered)
    else if (i + 3 <? len s)%nat && is_byte s i "("
            && is_byte s (i + 1) "t" && is_byte s (i + 2) "m"
            && is_byte s (i + 3) ")" then
      replaced (stringReplace s i 4 trademark)
    else if is_byte s i double_quote || is_byte s i single_quote then
      let rNext := rune_at s (i + 1) in
      if is_byte s i double_quote then
        let '(res, isOpen) := quoteReplace s i rPrev r rNext double in
        Continue {| scan_s := fst res; scan_i := i; scan_size := snd res;
                    scan_r := r; scan_inSingleQuote := single;
                    scan_inDoubleQuote := isOpen |}
      else
        let '(res, isOpen) := quoteReplace s i rPrev r rNext single in
        Continue {| scan_s := fst res; scan_i := i; scan_size := snd res;
                    scan_r := r; scan_inSingleQuote := isOpen;
                    scan_inDoubleQuote := double |}
    else
      let unchanged :=
        Continue {| scan_s := s; scan_i := i; scan_size := size;
                    scan_r := r; scan_inSingleQuote := single;
                    scan_inDoubleQuote := double |} in
      if (i + 2 <? len s)%nat && is_byte s (i + 1) "/"
         && isWordBoundary rPrev && negb (rPrev =? byteval "/") then
        let rNext := rune_at s (i + 3) in
        if isWordBoundary rNext && negb (rNext =? byteval "/") then
          if is_byte s i "1" && is_byte s (i + 2) "2" then
            replaced (stringReplace s i 3 one_half)
          else if is_byte s i "1" && is_byte s (i + 2) "4" then
            replaced (stringReplace s i 3 one_quarter)
          else if is_byte s i "3" && is_byte s (i + 2) "4" then
            replaced (stringReplace s i 3 three_quarters)
          else if is_byte s i "+" && is_byte s (i + 2) "-" then
            replaced (stringReplace s i 3 plus_minus)
          else unchanged
        else unchanged
      else unchanged.

(** The [for] loop, bounded by a number of rounds: [None] when the bound is
    reached before the loop breaks. *)
Fixpoint scan_loop (rounds : nat) (st : scanner) : option scanner :=
  match rounds with
  | O => None
  | S k =>
      match iteration st with
      | Break st' => Some st'
      | Continue st' => scan_loop k st'
      end
  end.

(** The part of a [Font] that the substitution reads. *)
Record Font := {
  typography : bool
}.

(** [substituteTypography], run for at most the given number of rounds. *)
Definition substituteTypography_within (rounds : nat) (f : Font)
  (s : gostring) (inSingleQuote inDoubleQuote : bool)
  : option (gostring * bool * bool) :=
  if typography f then
    st <- scan_loop rounds
            {| scan_s := s; scan_i := 0; scan_size := 0; scan_r := 0;
               scan_inSingleQuote := inSingleQuote;
               scan_inDoubleQuote := inDoubleQuote |} ;;
    Some (scan_s st, scan_inSingleQuote st, scan_inDoubleQuote st)
  else Some (s, inSingleQuote, inDoubleQuote).

(** [substituteTypography]: one round more than the text has bytes is
    always enough (see [scan_loop_breaks]). *)
Definition substituteTypography (f : Font) (s : gostring)
  (inSingleQuote inDoubleQuote : bool) : option (gostring * bool * bool) :=
  substituteTypography_within (S (len s)) f s inSingleQuote inDoubleQuote.

(** The byte index and rune of every round of [for i, r := range s]. *)
Fixpoint range_from (rounds i : nat) (s : gostring) : list (nat * rune) :=
  match rounds with
  | O => []
  | S k =>
      match s with
      | [] => []
      | _ :: _ =>
          let (r, size) := DecodeRuneInString s in
          (i, r) :: range_from k (i + size) (skipn size s)
      end
  end.

Definition range_string (s : gostring) : list (nat * rune) :=
  range_from (len s) 0 s.

(** ** Font faces *)

(** A pointer is the address of the object it refers to; two pointers are
    [==] when they are the same address. *)
Definition pointer := Z.

Record RGBA := { R : Z; G : Z; B : Z; A : Z }.

Definition RGBA_eqb (c d : RGBA) : bool :=
  (R c =? R d) && (G c =? G d) && (B c =? B d) && (A c =? A d).

(** [FontDecorator] is an exported interface.  The package defines eight
    decorators, each a struct type without fields; a caller may pass values
    of types of its own: [caller_defined t v] is such a value, [t] naming
    its dynamic type and [v] the value (by any numbering of the values of
    that type). *)
Inductive FontDecorator :=
| underline | overline | strikethrough | doubleUnderline
| dottedUnderline | dashedUnderline | sineUnderline | sawtoothUnderline
| caller_defined (dynamic_type : Z) (value : Z).

(** A slice of decorators: the address of its backing array and its
    elements, an element being an interface value ([None] is the nil
    interface). *)
Record slice := {
  array : pointer;
  elements : list (option FontDecorator)
}.

Section DeepEqual.

(** What [reflect.DeepEqual] makes of two values of one caller-defined type.
    It depends on that type: a struct with a NaN or a func field is not
    deeply equal to itself, two different pointers are deeply equal when
    what they point to is. *)
Variable DeepEqual_value : Z -> Z -> Z -> bool.

(** [reflect.DeepEqual] (Go standard library) on two values that are not
    nil interfaces: they are of the same dynamic type, with deeply equal
    contents; two structs without fields are deeply equal. *)
Definition same_decorator (a b : FontDecorator) : bool :=
  match a, b with
  | underline, underline | overline, overline
  | strikethrough, strikethrough | doubleUnderline, doubleUnderline
  | dottedUnderline, dottedUnderline | dashedUnderline, dashedUnderline
  | sineUnderline, sineUnderline | sawtoothUnderline, sawtoothUnderline => true
  | caller_defined t u, caller_defined t' v =>
      (t =? t') && DeepEqual_value t u v
  | _, _ => false
  end.

(** On two interface values: both nil, or neither nil and deeply equal. *)
Definition DeepEqual_interface (a b : option FontDecorator) : bool :=
  match a, b with
  | None, None => true
  | Some u, Some v => same_decorator u v
  | _, _ => false
  end.

Fixpoint DeepEqual_elements (l m : list (option FontDecorator)) : bool :=
  match l, m with
  | [], [] => true
  | a :: l', b :: m' => DeepEqual_interface a b && DeepEqual_elements l' m'
  | _, _ => false
  end.

(** On two slices ([None] is the nil slice): both nil, or both non-nil and
    of the same length, and then the same backing array or deeply equal
    elements. *)
Definition DeepEqual (a b : option slice) : bool :=
  match a, b with
  | None, None => true
  | Some l, Some m =>
      (List.length (elements l) =? List.length (elements m))%nat
      && ((array l =? array m) || DeepEqual_elements (elements l) (elements m))
  | _, _ => false
  end.

End DeepEqual.

(** Segments and results of the sfnt package; lengths are 26.6 fixed-point
    numbers. *)
Record Point26_6 := { X26 : Z; Y26 : Z }.

Record Segment := {
  Op : Z;
  Args0 : Point26_6;
  Args1 : Point26_6;
  Args2 : Point26_6
}.

Definition SegmentOpMoveTo : Z := 0.
Definition SegmentOpLineTo : Z := 1.
Definition SegmentOpQuadTo : Z := 2.
Definition SegmentOpCubeTo : Z := 3.

(** The queries of the parsed font that a face uses; each may fail. *)
Record sfntFont := {
  GlyphIndex : rune -> Z + error;
  LoadGlyph : Z -> Z -> list Segment + error;
  Kern : Z -> Z -> Z -> Z + error;
  GlyphAdvance : Z -> Z -> Z + error
}.

Section Face.
Context {num : Numeric}.
Local Open Scope f64_scope.

Record FontFace := {
  family : pointer;
  Font_ : pointer;
  Size : float64;
  Style : Z;
  Variant : Z;
  Color : RGBA;
  deco : option slice;
  Scale : float64;
  Voffset : float64;
  FauxBold : float64;
  FauxItalic : float64
}.

(** [Equals]; the argument [DeepEqual_value] is what [reflect.DeepEqual]
    makes of the values of caller-defined decorator types. *)
Definition Equals (DeepEqual_value : Z -> Z -> Z -> bool)
  (ff other : FontFace) : bool :=
  (Font_ ff =? Font_ other)%Z && feqb (Size ff) (Size other)
  && (Style ff =? Style other)%Z && (Variant ff =? Variant other)%Z
  && RGBA_eqb (Color ff) (Color other)
  && DeepEqual DeepEqual_value (deco ff) (deco other).

(** What [ToPath] takes from the rest of the package and from the path
    sink: the fixed-point conversions, the comparison of points, and the
    sink's [Empty] and [Offset]. *)
Variable toI26_6 : float64 -> Z.
Variable fromI26_6 : Z -> float64.
Variable Point_Equals : Point -> Point -> bool.
Variable Empty : Path -> bool.
Variable Offset : Path -> float64 -> Path.

(** [ff.Font.sfnt]: the parsed font behind the face's font pointer. *)
Variable sfnt_of : pointer -> sfntFont.

Definition fromP26_6 (q : Point26_6) : Point :=
  {| X := fromI26_6 (X26 q); Y := fromI26_6 (Y26 q) |}.

(** [end.X += ff.FauxItalic * -end.Y]. *)
Definition shear (ff : FontFace) (q : Point) : Point :=
  {| X := X q + FauxItalic ff * fneg (Y q); Y := Y q |}.

(** The variables of the loop over the segments of one glyph. *)
Record tracer := {
  tr_p : Path;
  start0 : Point;
  end_ : Point
}.

(** One round of [for i, segment := range segments]. *)
Definition segment_step (ff : FontFace) (x : float64) (i : nat)
  (segment : Segment) (t : tracer) : tracer :=
  if (Op segment =? SegmentOpMoveTo)%Z then
    let q := if negb (i =? 0)%nat && Point_Equals (start0 t) (end_ t)
             then tr_p t ++ [Close] else tr_p t in
    let e := shear ff (fromP26_6 (Args0 segment)) in
    {| tr_p := q ++ [MoveTo (x + X e) (Voffset ff - Y e)];
       start0 := e; end_ := e |}
  else if (Op segment =? SegmentOpLineTo)%Z then
    let e := shear ff (fromP26_6 (Args0 segment)) in
    {| tr_p := tr_p t ++ [LineTo (x + X e) (Voffset ff - Y e)];
       start0 := start0 t; end_ := e |}
  else if (Op segment =? SegmentOpQuadTo)%Z then
    let cp := shear ff (fromP26_6 (Args0 segment)) in
    let e := shear ff (fromP26_6 (Args1 segment)) in
    {| tr_p := tr_p t ++ [QuadTo (x + X cp) (Voffset ff - Y cp)
                                 (x + X e) (Voffset ff - Y e)];
       start0 := start0 t; end_ := e |}
  else if (Op segment =? SegmentOpCubeTo)%Z then
    let cp1 := shear ff (fromP26_6 (Args0 segment)) in
    let cp2 := shear ff (fromP26_6 (Args1 segment)) in
    let e := shear ff (fromP26_6 (Args2 segment)) in
    {| tr_p := tr_p t ++ [CubeTo (x + X cp1) (Voffset ff - Y cp1)
                                 (x + X cp2) (Voffset ff - Y cp2)
                                 (x + X e) (Voffset ff - Y e)];
       start0 := start0 t; end_ := e |}
  else t.

Fixpoint trace_segments (ff : FontFace) (x : float64) (i : nat)
  (segments : list Segment) (t : tracer) : tracer :=
  match segments with
  | [] => t
  | segment :: rest =>
      trace_segments ff x (S i) rest (segment_step ff x i segment t)
  end.

(** The variables of the loop over the runes. *)
Record layout := {
  lay_p : Path;
  lay_x : float64;
  prevIndex : Z
}.

Definition zero_point : Point := {| X := f_zero; Y := f_zero |}.

(** The rest of one round of [for i, r := range s], once the glyph index
    and the segments have been obtained. *)
Definition place_rune (ff : FontFace) (i : nat) (index : Z)
  (segments : list Segment) (st : layout) : layout :=
  let font := sfnt_of (Font_ ff) in
  let ppem := toI26_6 (Size ff * Scale ff) in
  let x :=
    if negb (i =? 0)%nat then
      match Kern font (prevIndex st) index ppem with
      | inl kern => lay_x st + fromI26_6 kern
      | inr _ => lay_x st
      end
    else lay_x st in
  let t := trace_segments ff x 0 segments
             {| tr_p := lay_p st; start0 := zero_point;
                end_ := zero_point |} in
  let q := if negb (Empty (tr_p t)) && Point_Equals (start0 t) (end_ t)
           then tr_p t ++ [Close] else tr_p t in
  let q := if negb (feqb (FauxBold ff) f_zero)
           then Offset q (FauxBold ff) else q in
  let x := match GlyphAdvance font index ppem with
           | inl advance => x + fromI26_6 advance
           | inr _ => x
           end in
  {| lay_p := q; lay_x := x; prevIndex := index |}.

(** [for i, r := range s] with its two early returns; the result is what
    [ToPath] returns: the path and the advance. *)
Fixpoint ToPath_loop (ff : FontFace) (runes : list (nat * rune))
  (st : layout) : Path * float64 :=
  match runes with
  | [] => (lay_p st, lay_x st)
  | (i, r) :: rest =>
      let font := sfnt_of (Font_ ff) in
      match GlyphIndex font r with
      | inr _ => (lay_p st, f_zero)
      | inl index =>
          match LoadGlyph font index (toI26_6 (Size ff * Scale ff)) with
          | inr _ => (lay_p st, f_zero)
          | inl segments =>
              ToPath_loop ff rest (place_rune ff i index segments st)
          end
      end
  end.

Definition ToPath (ff : FontFace) (s : gostring) : Path * float64 :=
  ToPath_loop ff (range_string s)
    {| lay_p := []; lay_x := f_zero; prevIndex := 0 |}.

End Face.

(** ** The arithmetic of the target: IEEE binary64 and 16-bit coordinates *)

Definition float64_of_Z (z : Z) : PrimFloat.float :=
  if z <? 0 then PrimFloat.opp (PrimFloat.of_uint63 (Uint63.of_Z (- z)))
  else PrimFloat.of_uint63 (Uint63.of_Z z).

(** Binary64 floats, with the glyph coordinates taken as [int16], the type
    the TrueType glyph table stores them in. *)
#[export] Instance binary64 : Numeric := {|
  float64 := PrimFloat.float;
  fadd := PrimFloat.add;
  fsub := PrimFloat.sub;
  fmul := PrimFloat.mul;
  fdiv := PrimFloat.div;
  fneg := PrimFloat.opp;
  feqb := PrimFloat.eqb;
  float64_of_int := float64_of_Z;
  f_zero := PrimFloat.zero;
  f_two := PrimFloat.two;
  coord_add := fun a b => int16 (a + b)
|}.

(** ** Vocabulary of the statements about contours *)

Section ContourVocabulary.
Context {num : Numeric}.
Local Open Scope f64_scope.


Section OnePoint.
Variable contour : glyfContour.
Variables f x y : float64.

(** The position of point [k] in the caller's space. *)
Definition vertex_x (k : Z) : float64 :=
  x + float64_of_int (nth (Z.to_nat k) (XCoordinates contour) 0%Z) * f.
Definition vertex_y (k : Z) : float64 :=
  y + float64_of_int (nth (Z.to_nat k) (YCoordinates contour) 0%Z) * f.

(** Point [k] exists and lies on the curve. *)
Definition on_curve_at (k : Z) : Prop :=
  index (OnCurve contour) k = Some true
  /\ (0 <= k < Z.of_nat (List.length (XCoordinates contour)))%Z
  /\ (0 <= k < Z.of_nat (List.length (YCoordinates contour)))%Z.


End OnePoint.


End ContourVocabulary.

(** Some contour of [ends] has no point: its end index lies below the
    running point index [i]. *)
Fixpoint has_empty_contour (ends : list Z) (i : Z) : bool :=
  match ends with
  | [] => false
  | e :: rest => if e <? i then true else has_empty_contour rest (e + 1)
  end.

(** ** Sample fonts and glyphs *)

(** A font with cubic (CFF) outlines. *)
Definition cff_font : SFNT :=
  {| IsTrueType := false; UnitsPerEm := 1000;
     GlyphContour := fun _ => (None, None) |}.

(** A TrueType font, 1000 units per em, with the same contour data for
    every glyph. *)
Definition font_of (c : glyfContour) : SFNT :=
  {| IsTrueType := true; UnitsPerEm := 1000;
     GlyphContour := fun _ => (Some c, None) |}.

(** A triangle: three on-curve points. *)
Definition triangle : glyfContour :=
  {| EndPoints := [2]; OnCurve := [true; true; true];
     XCoordinates := [0; 600; 300]; YCoordinates := [0; 0; 500] |}.

(** One contour: off-curve (0,0), off-curve (200,0), on-curve (300,100). *)
Definition off_off_on : glyfContour :=
  {| EndPoints := [2]; OnCurve := [false; false; true];
     XCoordinates := [0; 200; 300]; YCoordinates := [0; 0; 100] |}.

(** One contour of two off-curve points, (0,0) and (200,100). *)
Definition off_off : glyfContour :=
  {| EndPoints := [1]; OnCurve := [false; false];
     XCoordinates := [0; 200]; YCoordinates := [0; 100] |}.

(** The triangle followed by a contour without points: the second end index
    repeats the first. *)
Definition triangle_then_empty : glyfContour :=
  {| EndPoints := [2; 2]; OnCurve := [true; true; true];
     XCoordinates := [0; 600; 300]; YCoordinates := [0; 0; 500] |}.

(** Sizes and positions as binary64 numbers. *)
Definition fl (z : Z) : @float64 binary64 := float64_of_Z z.

(** The triangle, decoded at size 1000 from the origin. *)
Definition triangle_outline : @Path binary64 :=
  [MoveTo (fl 0) (fl 0); LineTo (fl 600) (fl 0); LineTo (fl 300) (fl 500);
   Close].


(** ** Vocabulary of the statements about glyph runs *)

Definition sum_XAdvance (glyphs : list Glyph) : Z :=
  fold_right (fun glyph acc => XAdvance glyph + acc) 0 glyphs.


(** The pen and outline [StringPath] starts its loop with. *)
Definition pen_start {num : Numeric} : pen :=
  {| outline := []; pen_x := 0; pen_y := 0 |}.


(** A run of three glyphs with advances 500, 620 and 480. *)
Definition three_glyphs : list Glyph :=
  [{| ID := 1; XAdvance := 500; YAdvance := 0; XOffset := 30; YOffset := 0 |};
   {| ID := 2; XAdvance := 620; YAdvance := 0; XOffset := 0; YOffset := 0 |};
   {| ID := 3; XAdvance := 480; YAdvance := 0; XOffset := -15; YOffset := 4 |}].


(** ** Vocabulary of the statements about the substitution scan *)

(** The index that a round of the scan examines: [i] after [i += size]. *)
Definition position (st : scanner) : nat := (scan_i st + scan_size st)%nat.

(** The number of bytes not scanned yet. *)
Definition remaining (st : scanner) : nat := (len (scan_s st) - position st)%nat.

(** [s] begins with the bytes [pat]. *)
Fixpoint starts_with (pat s : gostring) : bool :=
  match pat, s with
  | [], _ => true
  | c :: pat', b :: s' => Ascii.eqb b c && starts_with pat' s'
  | _ :: _, [] => false
  end.


(** A rune that is a word boundary without being the slash. *)
Definition boundary_not_slash (r : rune) : bool :=
  isWordBoundary r && negb (r =? byteval "/").

(** A font with the typographic substitutions switched on. *)
Definition typographic : Font := {| typography := true |}.

(** ** Vocabulary of the statements about faces, and a sample face *)

(** Both lookups that [ToPath] needs for a rune succeed. *)
Definition loads (font : sfntFont) (ppem : Z) (r : rune) : bool :=
  match GlyphIndex font r with
  | inl index =>
      match LoadGlyph font index ppem with
      | inl _ => true
      | inr _ => false
      end
  | inr _ => false
  end.

(** The state [ToPath] starts its loop with. *)
Definition layout_start {num : Numeric} : layout :=
  {| lay_p := []; lay_x := f_zero; prevIndex := 0 |}.

(** A font that knows the capital letters only: every glyph is the same
    triangle, ten units wide, and there is no kerning table. *)
Definition capitals : sfntFont :=
  {| GlyphIndex := fun r =>
       if (65 <=? r) && (r <=? 90) then inl (r - 64)
       else inr "glyph not found"%string;
     LoadGlyph := fun _ _ =>
       inl [ {| Op := SegmentOpMoveTo; Args0 := {| X26 := 0; Y26 := 0 |};
                Args1 := {| X26 := 0; Y26 := 0 |};
                Args2 := {| X26 := 0; Y26 := 0 |} |};
             {| Op := SegmentOpLineTo; Args0 := {| X26 := 512; Y26 := 0 |};
                Args1 := {| X26 := 0; Y26 := 0 |};
                Args2 := {| X26 := 0; Y26 := 0 |} |};
             {| Op := SegmentOpLineTo; Args0 := {| X26 := 0; Y26 := 512 |};
                Args1 := {| X26 := 0; Y26 := 0 |};
                Args2 := {| X26 := 0; Y26 := 0 |} |} ];
     Kern := fun _ _ _ => inr "no kerning"%string;
     GlyphAdvance := fun _ _ => inl 640 |}.

(** A regular black 12-unit face of that font, without decorations. *)
Definition sample_face : @FontFace binary64 :=
  {| family := 1; Font_ := 2; Size := fl 12; Style := 0; Variant := 2;
     Color := {| R := 0; G := 0; B := 0; A := 255 |}; deco := None;
     Scale := fl 1; Voffset := fl 0; FauxBold := fl 0; FauxItalic := fl 0 |}.

(** What [ToPath] is given for the sample face: 26.6 numbers are
    sixty-fourths, the only size in play is 12 (768 sixty-fourths), points
    are compared exactly, and the sink's Offset is not reached (no faux
    bold). *)
Definition sample_toI26_6 (v : @float64 binary64) : Z := 768.
Definition sample_fromI26_6 (z : Z) : @float64 binary64 :=
  PrimFloat.div (fl z) (fl 64).
Definition sample_Point_Equals (a b : @Point binary64) : bool :=
  PrimFloat.eqb (X a) (X b) && PrimFloat.eqb (Y a) (Y b).
Definition sample_Empty (q : @Path binary64) : bool :=
  match q with [] => true | _ :: _ => false end.
Definition sample_Offset (q : @Path binary64) (w : @float64 binary64)
  : @Path binary64 := q.
Definition sample_sfnt_of (font : pointer) : sfntFont := capitals.

Definition sample_ToPath (s : gostring) : @Path binary64 * @float64 binary64 :=
  ToPath sample_toI26_6 sample_fromI26_6 sample_Point_Equals sample_Empty
    sample_Offset sample_sfnt_of sample_face s.

(** The scanner on the text 1870--1880 when it reaches the hyphens, and on
    the text "1/2 cup" when it starts. *)
Definition at_the_hyphens : scanner :=
  {| scan_s := go "1870--1880"; scan_i := 3; scan_size := 1;
     scan_r := byteval "0"; scan_inSingleQuote := false;
     scan_inDoubleQuote := false |}.


(** ** Vocabulary of further statements about outlines *)

Section OutlineVocabulary.
Context {num : Numeric}.

(** The operations that draw or move, as opposed to Close and CubeTo. *)
Definition drawing (c : cmd) : bool :=
  match c with
  | MoveTo _ _ | LineTo _ _ | QuadTo _ _ _ _ => true
  | _ => false
  end.

(** The operations that draw a segment from the current position. *)
Definition segment (c : cmd) : bool :=
  match c with
  | LineTo _ _ | QuadTo _ _ _ _ => true
  | _ => false
  end.

(** A sub-path as it is sent to the sink: its operations, then Close. *)
Definition closed (ops : Path) : Path := ops ++ [Close].



(** Point [k] exists in the three point arrays of the contour data. *)
Definition present (contour : glyfContour) (k : Z) : Prop :=
  (0 <= k < Z.of_nat (List.length (OnCurve contour)))%Z
  /\ (0 <= k < Z.of_nat (List.length (XCoordinates contour)))%Z
  /\ (0 <= k < Z.of_nat (List.length (YCoordinates contour)))%Z.

End OutlineVocabulary.

(** A contour that uses every point index a glyph can have: 65536 points at
    the origin, all on the curve, the last one at index 65535. *)
Definition full_contour : glyfContour :=
  {| EndPoints := [65535]; OnCurve := repeat true (Z.to_nat 65536);
     XCoordinates := repeat 0 (Z.to_nat 65536);
     YCoordinates := repeat 0 (Z.to_nat 65536) |}.

(** A font whose glyph table cannot be read. *)
Definition broken_font : SFNT :=
  {| IsTrueType := true; UnitsPerEm := 1000;
     GlyphContour := fun _ => (None, Some "glyph out of range"%string) |}.


Section CurveVocabulary.
Context {num : Numeric}.


End CurveVocabulary.


(** ** Vocabulary of further statements about glyph runs *)

Definition sum_YAdvance (glyphs : list Glyph) : Z :=
  fold_right (fun glyph acc => YAdvance glyph + acc) 0 glyphs.

(** A font in which glyph 9 cannot be read; the others are the triangle. *)
Definition partial_font : SFNT :=
  {| IsTrueType := true; UnitsPerEm := 1000;
     GlyphContour := fun glyphID =>
       if glyphID =? 9 then (None, Some "glyph out of range"%string)
       else (Some triangle, None) |}.

(** A run whose second glyph is glyph 9. *)
Definition run_with_gap : list Glyph :=
  [{| ID := 1; XAdvance := 500; YAdvance := 0; XOffset := 30; YOffset := 0 |};
   {| ID := 9; XAdvance := 620; YAdvance := 0; XOffset := 0; YOffset := 0 |};
   {| ID := 3; XAdvance := 480; YAdvance := 0; XOffset := -15; YOffset := 4 |}].

(** The triangle decoded at size 1000 with its origin 30 units to the right:
    the first glyph of the sample runs. *)
Definition first_glyph_outline : @Path binary64 :=
  [MoveTo (fl 30) (fl 0); LineTo (fl 630) (fl 0); LineTo (fl 330) (fl 500);
   Close].

(** The triangle decoded at size 1000 with its origin at x = 500, where the
    second glyph of [three_glyphs] goes. *)
Definition second_glyph_outline : @Path binary64 :=
  [MoveTo (fl 500) (fl 0); LineTo (fl 1100) (fl 0); LineTo (fl 800) (fl 500);
   Close].

(** The first glyph of a run (of the sample runs, which are not empty). *)
Definition hd_glyph (glyphs : list Glyph) : Glyph :=
  hd {| ID := 0; XAdvance := 0; YAdvance := 0; XOffset := 0; YOffset := 0 |}
     glyphs.

(** ** Vocabulary of further statements about the substitution scan *)

(** The bytes that can start a rule of the scan, and the slash, without
    which no fraction rule applies. *)
Definition trigger (c : ascii) : bool :=
  existsb (Ascii.eqb c) ["."; "-"; "("; double_quote; single_quote; "/"]%char.

Definition quote_byte (c : ascii) : bool :=
  Ascii.eqb c double_quote || Ascii.eqb c single_quote.

(** The four kinds of neighbour that [quoteReplace] tells apart. *)
Inductive neighbour := Nothing | Space | Punctuation | Other.

Definition classify (r : rune) : neighbour :=
  if r =? 0 then Nothing
  else if isspace r then Space
  else if ispunct r then Punctuation
  else Other.

(** What becomes of the open flag, by the kinds of the rune before and of
    the rune after the quote. *)
Definition direction (prev next : neighbour) (isOpen : bool) : bool :=
  match prev, next with
  | Nothing, Nothing | Space, Space | Punctuation, Punctuation => negb isOpen
  | Space, Nothing | Space, Punctuation => true
  | _, Other => match prev with Other => false | _ => true end
  | _, _ => false
  end.

(** ** Typographic options of a font *)

(** [TypographicOptions]: [2 << iota]. *)
Definition NoTypography : Z := 2.
Definition NoRequiredLigatures : Z := 4.
Definition CommonLigatures : Z := 8.
Definition DiscretionaryLigatures : Z := 16.
Definition HistoricalLigatures : Z := 32.

Record textSubstitution := {
  src : gostring;
  dst : rune
}.

Definition commonLigatures : list textSubstitution :=
  [ {| src := go "ffi"; dst := 0xFB03 |};
    {| src := go "ffl"; dst := 0xFB04 |};
    {| src := go "ff"; dst := 0xFB00 |};
    {| src := go "fi"; dst := 0xFB01 |};
    {| src := go "fl"; dst := 0xFB02 |} ].

Definition superscriptSubstitutes : list textSubstitution :=
  [ {| src := go "0"; dst := 0x2070 |}; {| src := go "i"; dst := 0x2071 |};
    {| src := go "2"; dst := 0x00B2 |}; {| src := go "3"; dst := 0x00B3 |};
    {| src := go "4"; dst := 0x2074 |}; {| src := go "5"; dst := 0x2075 |};
    {| src := go "6"; dst := 0x2076 |}; {| src := go "7"; dst := 0x2077 |};
    {| src := go "8"; dst := 0x2078 |}; {| src := go "9"; dst := 0x2079 |};
    {| src := go "+"; dst := 0x207A |}; {| src := go "-"; dst := 0x207B |};
    {| src := go "="; dst := 0x207C |}; {| src := go "("; dst := 0x207D |};
    {| src := go ")"; dst := 0x207E |}; {| src := go "n"; dst := 0x207F |} ].

Definition subscriptSubstitutes : list textSubstitution :=
  [ {| src := go "0"; dst := 0x2080 |}; {| src := go "1"; dst := 0x2081 |};
    {| src := go "2"; dst := 0x2082 |}; {| src := go "3"; dst := 0x2083 |};
    {| src := go "4"; dst := 0x2084 |}; {| src := go "5"; dst := 0x2085 |};
    {| src := go "6"; dst := 0x2086 |}; {| src := go "7"; dst := 0x2087 |};
    {| src := go "8"; dst := 0x2088 |}; {| src := go "9"; dst := 0x2089 |};
    {| src := go "+"; dst := 0x208A |}; {| src := go "-"; dst := 0x208B |};
    {| src := go "="; dst := 0x208C |}; {| src := go "("; dst := 0x208D |};
    {| src := go ")"; dst := 0x208E |}; {| src := go "a"; dst := 0x2090 |};
    {| src := go "e"; dst := 0x2091 |}; {| src := go "o"; dst := 0x2092 |};
    {| src := go "x"; dst := 0x2093 |}; {| src := go "h"; dst := 0x2095 |};
    {| src := go "k"; dst := 0x2096 |}; {| src := go "l"; dst := 0x2097 |};
    {| src := go "m"; dst := 0x2098 |}; {| src := go "n"; dst := 0x2099 |};
    {| src := go "p"; dst := 0x209A |}; {| src := go "s"; dst := 0x209B |};
    {| src := go "t"; dst := 0x209C |} ].

(** The fields of the [Font] struct that [Use] and its helpers read and
    write; the typography flag is held in the record that the substitution
    reads. *)
Record FontObject := {
  font_settings : Font;
  font_sfnt : sfntFont;
  font_ligatures : list textSubstitution;
  font_superscript : list textSubstitution;
  font_subscript : list textSubstitution
}.

(** The loop of [supportedSubstitutions], one rule at a time. *)
Definition keep_supported (f : FontObject)
  (supported : list textSubstitution) (stn : textSubstitution)
  : list textSubstitution :=
  match GlyphIndex (font_sfnt f) (dst stn) with
  | inl _ => supported ++ [stn]
  | inr _ => supported
  end.

Definition supportedSubstitutions (f : FontObject)
  (substitutions : list textSubstitution) : list textSubstitution :=
  fold_left (keep_supported f) substitutions [].

(** [Use] changes the font it is called on; the changed font is returned. *)
Definition Use (options : Z) (f : FontObject) : FontObject :=
  let typography' :=
    if Z.land options NoTypography =? 0 then true
    else typography (font_settings f) in
  let ligatures' :=
    if negb (Z.land options CommonLigatures =? 0)
    then [] ++ supportedSubstitutions f commonLigatures
    else [] in
  {| font_settings := {| typography := typography' |};
     font_sfnt := font_sfnt f;
     font_ligatures := ligatures';
     font_superscript := font_superscript f;
     font_subscript := font_subscript f |}.

(** What [parseFont] does once the font data is parsed: a fresh [Font]
    around the parsed data, its lists of supported superscripts and
    subscripts, then [Use(0)]. *)
Definition parseFont_setup (parsed : sfntFont) : FontObject :=
  let f := {| font_settings := {| typography := false |};
              font_sfnt := parsed; font_ligatures := [];
              font_superscript := []; font_subscript := [] |} in
  let f := {| font_settings := font_settings f; font_sfnt := font_sfnt f;
              font_ligatures := font_ligatures f;
              font_superscript := supportedSubstitutions f superscriptSubstitutes;
              font_subscript := font_subscript f |} in
  let f := {| font_settings := font_settings f; font_sfnt := font_sfnt f;
              font_ligatures := font_ligatures f;
              font_superscript := font_superscript f;
              font_subscript := supportedSubstitutions f subscriptSubstitutes |} in
  Use 0 f.

(** The rune has a glyph in the font. *)
Definition has_glyph (f : FontObject) (r : rune) : bool :=
  match GlyphIndex (font_sfnt f) r with
  | inl _ => true
  | inr _ => false
  end.

(** ** Styles, variants and the width of a text *)

(** [FontStyle]: regular is 0, italic is 1, the weights are [2 << iota] from
    the third constant of the block on. *)
Definition FontRegular : Z := 0.
Definition FontItalic : Z := 1.
Definition FontExtraLight : Z := 8.
Definition FontLight : Z := 16.
Definition FontBook : Z := 32.
Definition FontMedium : Z := 64.
Definition FontSemibold : Z := 128.
Definition FontBold : Z := 256.
Definition FontBlack : Z := 512.
Definition FontExtraBlack : Z := 1024.

(** [FontVariant]: [2 << iota]. *)
Definition FontNormal : Z := 2.
Definition FontSubscript : Z := 4.
Definition FontSuperscript : Z := 8.
Definition FontSmallcaps : Z := 16.

(** [style&flag == flag]. *)
Definition has_style (style flag : Z) : bool := Z.land style flag =? flag.

Section Width.
Context {num : Numeric}.
Local Open Scope f64_scope.

Definition Boldness (ff : FontFace) : Z :=
  let boldness :=
    if has_style (Style ff) FontExtraLight then 100
    else if has_style (Style ff) FontLight then 200
    else if has_style (Style ff) FontBook then 300
    else if has_style (Style ff) FontMedium then 500
    else if has_style (Style ff) FontSemibold then 600
    else if has_style (Style ff) FontBold then 700
    else if has_style (Style ff) FontBlack then 800
    else if has_style (Style ff) FontExtraBlack then 900
    else 400 in
  if negb (Z.land (Variant ff) FontSubscript =? 0)
     || negb (Z.land (Variant ff) FontSuperscript =? 0) then
    let boldness := (boldness + 300)%Z in
    if (1000 <? boldness)%Z then 1000 else boldness
  else boldness.

Variable toI26_6 : float64 -> Z.
Variable fromI26_6 : Z -> float64.
Variable sfnt_of : pointer -> sfntFont.

(** The variables of the loop of [TextWidth]. *)
Record measure := {
  w : float64;
  w_prevIndex : Z
}.

(** [for i, r := range s] in [TextWidth]; a rune without glyph index is
    passed over by [continue]. *)
Fixpoint TextWidth_loop (ff : FontFace) (runes : list (nat * rune))
  (st : measure) : float64 :=
  match runes with
  | [] => w st
  | (i, r) :: rest =>
      let font := sfnt_of (Font_ ff) in
      let ppem := toI26_6 (Size ff * Scale ff) in
      match GlyphIndex font r with
      | inr _ => TextWidth_loop ff rest st
      | inl index =>
          let w1 :=
            if negb (i =? 0)%nat then
              match Kern font (w_prevIndex st) index ppem with
              | inl kern => w st + fromI26_6 kern
              | inr _ => w st
              end
            else w st in
          let w2 := match GlyphAdvance font index ppem with
                    | inl advance => w1 + fromI26_6 advance
                    | inr _ => w1
                    end in
          TextWidth_loop ff rest {| w := w2; w_prevIndex := index |}
      end
  end.

Definition TextWidth (ff : FontFace) (s : gostring) : float64 :=
  TextWidth_loop ff (range_string s) {| w := f_zero; w_prevIndex := 0 |}.

End Width.

Definition sample_TextWidth (s : gostring) : @float64 binary64 :=
  TextWidth sample_toI26_6 sample_fromI26_6 sample_sfnt_of sample_face s.

Section MidpointVocabulary.
Context {num : Numeric}.
Local Open Scope f64_scope.



End MidpointVocabulary.



(** ** Vocabulary of the statements about the equality of faces *)


Section FaceVocabulary.
Variable DeepEqual_value : Z -> Z -> Z -> bool.



End FaceVocabulary.




(** Caller-defined values that are deeply equal when they are the same. *)
Definition sample_DeepEqual_value (t u v : Z) : bool := u =? v.

(** A face whose size is not a number. *)
Definition nan_face : @FontFace binary64 :=
  {| family := 1; Font_ := 2; Size := PrimFloat.nan; Style := 0;
     Variant := 2; Color := {| R := 0; G := 0; B := 0; A := 255 |};
     deco := None; Scale := fl 1; Voffset := fl 0;
     FauxBold := fl 0; FauxItalic := fl 0 |}.

(** The sample face with an empty decoration list that is not nil. *)
Definition undecorated_face : @FontFace binary64 :=
  {| family := family sample_face; Font_ := Font_ sample_face;
     Size := Size sample_face; Style := Style sample_face;
     Variant := Variant sample_face; Color := Color sample_face;
     deco := Some {| array := 4096; elements := [] |};
     Scale := Scale sample_face; Voffset := Voffset sample_face;
     FauxBold := FauxBold sample_face; FauxItalic := FauxItalic sample_face |}.

(** ** Vocabulary of the statements about the scan as a whole *)

(** The state that the scan of a text starts in. *)
Definition scan_start (s : gostring) (inSingleQuote inDoubleQuote : bool)
  : scanner :=
  {| scan_s := s; scan_i := 0; scan_size := 0; scan_r := 0;
     scan_inSingleQuote := inSingleQuote;
     scan_inDoubleQuote := inDoubleQuote |}.

(** The state in which round [n + 1] of the loop begins; [None] when the
    loop has ended before. *)
Fixpoint after_rounds (n : nat) (st : scanner) : option scanner :=
  match n with
  | O => Some st
  | S k =>
      match iteration st with
      | Continue st' => after_rounds k st'
      | Break _ => None
      end
  end.

(** The rune before byte [k] of a text: the last one that
    [for i, r := range s] yields at an index below [k], and 0 when there is
    none (at the start of the text). *)
Definition rune_before (s : gostring) (k : nat) : rune :=
  last (map snd (filter (fun ir => (fst ir <? k)%nat) (range_string s))) 0.

(** The runes of [s] in the order of [for i, r := range s], split at byte
    [k]: [pre] holds those that start before [k], and ranging goes on from
    [k]. *)
Definition scanned (s : gostring) (k : nat) (pre : list (nat * rune)) : Prop :=
  range_string s = pre ++ range_from (len s) k (skipn k s)
  /\ Forall (fun ir => (fst ir < k)%nat) pre.

(** The scan of the input [s0] stands at byte [k] of the input: what is left
    to scan is the input from byte [k] on, a rune of the input starts at
    [k], and the rune that the scanner holds as the previous one is a word
    boundary other than the slash exactly when the rune before byte [k] of
    the input is. *)
Definition stands_at (s0 : gostring) (st : scanner) (k : nat) : Prop :=
  (k <= len s0)%nat
  /\ skipn (position st) (scan_s st) = skipn k s0
  /\ (exists pre, scanned s0 k pre)
  /\ boundary_not_slash (scan_r st) = boundary_not_slash (rune_before s0 k).

(** The texts that the rules of the scan replace. *)
Definition sources : list gostring :=
  [go "..."; go ". . ."; go "---"; go "--"; go "(c)"; go "(r)"; go "(tm)";
   [double_quote]; [single_quote]; go "1/2"; go "1/4"; go "3/4"; go "+/-"].

(** The bytes that a fraction rule starts with. *)
Definition anchor (c : ascii) : bool :=
  Ascii.eqb c "1" || Ascii.eqb c "3" || Ascii.eqb c "+".

(** A byte that is a character of its own in UTF-8. *)
Definition ascii7 (c : ascii) : bool := byteval c <? 128.

(** The NUL character. *)
Definition NUL : ascii := Ascii.zero.
(** * Properties *)

(** ** Contour decoding *)

Section GlyphFacts.
Context {num : Numeric}.
Local Open Scope f64_scope.

Lemma index_nth {A} (l : list A) (k : Z) (a : A) :
  (0 <= k < Z.of_nat (List.length l))%Z ->
  index l k = Some (nth (Z.to_nat k) l a).
Proof.
  intros Hk. unfold index.
  destruct (Z.ltb_spec k 0) as [Hneg | _]; [lia |].
  apply nth_error_nth'. lia.
Qed.

Lemma StartPos_from_app (q1 q2 : Path) (start : Point) :
  StartPos_from start (q1 ++ q2) = StartPos_from (StartPos_from start q1) q2.
Proof.
  revert start. induction q1 as [| c q1 IH]; intros start; simpl.
  - reflexivity.
  - destruct c; apply IH.
Qed.



Section OneContour.
Variable contour : glyfContour.
Variables f x y : float64.

Lemma px_vertex (k : Z) :
  (0 <= k < Z.of_nat (List.length (XCoordinates contour)))%Z ->
  px contour f x k = Some (vertex_x contour f x k).
Proof.
  intros Hk. unfold px, vertex_x. now rewrite (index_nth _ _ 0%Z Hk).
Qed.

Lemma py_vertex (k : Z) :
  (0 <= k < Z.of_nat (List.length (YCoordinates contour)))%Z ->
  py contour f y k = Some (vertex_y contour f y k).
Proof.
  intros Hk. unfold py, vertex_y. now rewrite (index_nth _ _ 0%Z Hk).
Qed.


End OneContour.



End GlyphFacts.

(** ** GlyphPath on concrete glyphs, and its error cases *)

Section GlyphPathFacts.
Context {num : Numeric}.
Local Open Scope f64_scope.

(** C3. On a font that is not TrueType (the CFF case), [GlyphPath] returns,
    for every glyph, size and origin, the error "CFF not supported" and a nil
    path. *)
Theorem GlyphPath_CFF_not_supported (sfnt : SFNT) (glyphID : Z)
  (size x y : float64) :
  IsTrueType sfnt = false ->
  GlyphPath sfnt glyphID size x y
  = Some (None, Some "CFF not supported"%string).
Proof. intros Hcff. unfold GlyphPath. now rewrite Hcff. Qed.

(** Decoding only ever appends to the outline. *)
Lemma point_extends contour f x y (i : Z) (d d' : decoder) :
  point contour f x y i d = Some d' -> exists ops, p d' = p d ++ ops.
Proof.
  unfold point, emit. intros H.
  repeat match type of H with
         | match ?e with _ => _ end = _ => destruct e eqn:?; try discriminate
         | (if ?e then _ else _) = _ => destruct e eqn:?
         end;
    injection H as <-; cbn [p];
    first [ now exists [] ; now rewrite app_nil_r | eexists; reflexivity ].
Qed.

Lemma points_extends contour f x y (n : nat) :
  forall (i i' : Z) (d d' : decoder),
    points contour f x y n i d = Some (i', d') ->
    exists ops, p d' = p d ++ ops.
Proof.
  induction n as [| n IH]; intros i i' d d' H; cbn [points] in H.
  - injection H as _ <-. exists []. now rewrite app_nil_r.
  - destruct (point contour f x y i d) as [d1 |] eqn:Hpoint; [| discriminate].
    destruct (point_extends _ _ _ _ _ _ _ Hpoint) as [ops1 H1].
    destruct (IH _ _ _ _ H) as [ops2 H2].
    exists (ops1 ++ ops2). now rewrite H2, H1, app_assoc.
Qed.

Lemma close_contour_extends contour f x y (j i : Z) (d : decoder) (q : Path) :
  close_contour contour f x y j i d = Some q -> exists ops, q = p d ++ ops.
Proof.
  unfold close_contour. intros H.
  repeat match type of H with
         | match ?e with _ => _ end = _ => destruct e eqn:?; try discriminate
         | (if ?e then _ else _) = _ => destruct e eqn:?
         end;
    injection H as <-; eexists; reflexivity.
Qed.

Lemma decode_contour_extends contour f x y (e : Z) (s s' : Path * Z) :
  decode_contour contour f x y e s = Some s' ->
  exists ops, fst s' = fst s ++ ops.
Proof.
  unfold decode_contour, scan_points. intros H.
  destruct (e <? snd s)%Z.
  - cbn [fst snd] in H.
    destruct close_contour as [q |] eqn:Hclose in H; [| discriminate].
    injection H as <-. cbn [fst].
    apply close_contour_extends in Hclose. exact Hclose.
  - destruct (e =? 65535)%Z; [discriminate |].
    destruct points as [[i' d'] |] eqn:Hpoints in H; [| discriminate].
    cbn [fst snd] in H.
    destruct close_contour as [q |] eqn:Hclose in H; [| discriminate].
    injection H as <-. cbn [fst].
    apply points_extends in Hpoints. cbn [p] in Hpoints.
    apply close_contour_extends in Hclose.
    destruct Hpoints as [ops1 H1], Hclose as [ops2 H2].
    exists (ops1 ++ ops2). now rewrite H2, H1, app_assoc.
Qed.

Lemma decode_contours_extends contour f x y (ends : list Z) :
  forall s s' : Path * Z,
    decode_contours contour f x y ends s = Some s' ->
    exists ops, fst s' = fst s ++ ops.
Proof.
  induction ends as [| e ends IH]; intros s s' H; cbn [decode_contours] in H.
  - injection H as <-. exists []. now rewrite app_nil_r.
  - destruct decode_contour as [s1 |] eqn:H1 in H; [| discriminate].
    apply decode_contour_extends in H1. apply IH in H.
    destruct H1 as [ops1 H1], H as [ops2 H2].
    exists (ops1 ++ ops2). now rewrite H2, H1, app_assoc.
Qed.

Lemma decode_contours_app contour f x y (pre post : list Z) :
  forall s : Path * Z,
    decode_contours contour f x y (pre ++ post) s
    = (s' <- decode_contours contour f x y pre s ;;
       decode_contours contour f x y post s').
Proof.
  induction pre as [| e pre IH]; intros s; cbn [app decode_contours].
  - reflexivity.
  - destruct decode_contour; [apply IH | reflexivity].
Qed.

(** A contour without points: the loop body never runs, no curve is
    pending, and the decoder closes the empty sub-path. *)
Lemma decode_empty_contour contour f x y (e i : Z) (q : Path) :
  (e < i)%Z ->
  decode_contour contour f x y e (q, i) = Some (q ++ [Close], i).
Proof.
  intros Hlt. unfold decode_contour, scan_points. cbn [fst snd].
  destruct (Z.ltb_spec e i) as [_ | ?]; [reflexivity | lia].
Qed.




(** C2, as the code has it.  When the contour data of a TrueType glyph
    holds a contour without points (its end index [e] lies below the running
    point index [i] reached after the contours [pre]), [GlyphPath] raises no
    error for it: the outline [q] of the earlier contours is kept as it is,
    the empty contour adds exactly one Close, and decoding goes on with the
    later contours. Whatever [GlyphPath] returns then has a nil error and an
    outline that starts with [q] followed by that Close. *)
Theorem empty_contour_adds_close (sfnt : SFNT) (glyphID : Z)
  (size x y : float64) (contour : glyfContour) (pre post : list Z) (e i : Z)
  (q : Path) :
  IsTrueType sfnt = true ->
  GlyphContour sfnt glyphID = (Some contour, None) ->
  EndPoints contour = pre ++ e :: post ->
  decode_contours contour (size / float64_of_int (UnitsPerEm sfnt)) x y pre
    ([], 0%Z) = Some (q, i) ->
  (e < i)%Z ->
  decode_contours contour (size / float64_of_int (UnitsPerEm sfnt)) x y
    (pre ++ [e]) ([], 0%Z) = Some (q ++ [Close], i)
  /\ GlyphPath sfnt glyphID size x y
     = (r <- decode_contours contour
               (size / float64_of_int (UnitsPerEm sfnt)) x y post
               (q ++ [Close], i) ;;
        Some (Some (fst r), None))
  /\ (forall out err,
        GlyphPath sfnt glyphID size x y = Some (out, err) ->
        err = None /\ exists rest, out = Some (q ++ Close :: rest)).
Proof.
  intros Htt Hcontour Hends Hpre Hlt.
  set (f := size / float64_of_int (UnitsPerEm sfnt)) in *.
  assert (Hstep : decode_contours contour f x y (pre ++ [e]) ([], 0%Z)
                  = Some (q ++ [Close], i)).
  { rewrite decode_contours_app, Hpre. cbn [decode_contours].
    now rewrite decode_empty_contour. }
  assert (Hall : GlyphPath sfnt glyphID size x y
                 = (r <- decode_contours contour f x y post
                           (q ++ [Close], i) ;;
                    Some (Some (fst r), None))).
  { unfold GlyphPath. rewrite Htt, Hcontour, Hends. fold f.
    replace (pre ++ e :: post) with ((pre ++ [e]) ++ post)
      by now rewrite <- app_assoc.
    now rewrite decode_contours_app, Hstep. }
  split; [exact Hstep | split; [exact Hall |]].
  intros out err Hret. rewrite Hall in Hret.
  destruct decode_contours as [r |] eqn:Hpost in Hret; [| discriminate].
  injection Hret as <- <-. split; [reflexivity |].
  apply decode_contours_extends in Hpost. destruct Hpost as [rest Hrest].
  cbn [fst] in Hrest. exists rest. rewrite Hrest, <- app_assoc. reflexivity.
Qed.

End GlyphPathFacts.

(** ** The start of a contour that begins off the curve *)

Section OffCurveStart.
Context {num : Numeric}.
Local Open Scope f64_scope.
Variable contour : glyfContour.
Variables f x y : float64.

Lemma StartPos_last_MoveTo (q : Path) (a b : float64) :
  StartPos (q ++ [MoveTo a b]) = {| X := a; Y := b |}.
Proof. unfold StartPos. rewrite StartPos_from_app. reflexivity. Qed.

(** The branch for a second off-curve point moves to the midpoint and
    leaves [first] set. *)
Lemma second_off_point_keeps_first (i : Z) (d d' : decoder) :
  first d = true -> prevOff d = true ->
  index (OnCurve contour) i = Some false ->
  point contour f x y i d = Some d' ->
  first d' = true /\ prevOff d' = true
  /\ exists a b, p d' = p d ++ [MoveTo a b].
Proof.
  intros Hfirst Hprev Hoff. unfold point.
  rewrite Hoff, Hfirst, Hprev. cbn [negb].
  destruct xMid as [xm |]; [| discriminate].
  destruct yMid as [ym |]; [| discriminate].
  intros Hd. injection Hd as <-. cbn [emit first prevOff p].
  repeat split; try assumption. eexists. eexists. reflexivity.
Qed.

(** While [first] is set, an on-curve point starts the sub-path anew, at
    that point, whatever was moved to before. *)
Lemma on_point_restarts (i : Z) (d d' : decoder) :
  first d = true ->
  on_curve_at contour i ->
  point contour f x y i d = Some d' ->
  StartPos (p d')
  = {| X := vertex_x contour f x i; Y := vertex_y contour f y i |}
  /\ first d' = false.
Proof.
  intros Hfirst (Hon & Hx & Hy). unfold point.
  rewrite Hon, Hfirst, (px_vertex _ _ _ _ Hx), (py_vertex _ _ _ _ Hy).
  intros Hd. injection Hd as <-. cbn [p first].
  split; [apply StartPos_last_MoveTo | reflexivity].
Qed.

(** So whenever an on-curve point follows two leading off-curve points, the
    sub-path starts at that on-curve point and not at the midpoint. *)
Lemma off_off_on_restarts (j : Z) (q : Path) (d : decoder) :
  index (OnCurve contour) j = Some false ->
  index (OnCurve contour) (j + 1) = Some false ->
  on_curve_at contour (j + 2) ->
  points contour f x y 3 j
    {| p := q; first := true; firstOff := false; prevOff := false |}
  = Some ((j + 3)%Z, d) ->
  StartPos (p d)
  = {| X := vertex_x contour f x (j + 2); Y := vertex_y contour f y (j + 2) |}.
Proof.
  intros Hoff0 Hoff1 Hon. cbn [points]. unfold point at 1.
  rewrite Hoff0. cbn [first prevOff negb].
  destruct point as [d1 |] eqn:Hpoint1 at 1; [| discriminate].
  apply second_off_point_keeps_first in Hpoint1;
    [| reflexivity | reflexivity | exact Hoff1].
  destruct Hpoint1 as (Hfirst1 & _ & _).
  replace (j + 1 + 1)%Z with (j + 2)%Z by lia.
  destruct point as [d2 |] eqn:Hpoint2; [| discriminate].
  intros Hd. injection Hd as _ <-.
  exact (proj1 (on_point_restarts _ _ _ Hfirst1 Hon Hpoint2)).
Qed.

End OffCurveStart.

(** ** GlyphPath evaluated on the sample glyphs (binary64) *)

Lemma GlyphPath_CFF_not_supported_witness :
  IsTrueType cff_font = false
  /\ GlyphPath cff_font 7 (fl 1000) (fl 0) (fl 0)
     = Some (None, Some "CFF not supported"%string).
Proof.
  split; [reflexivity |].
  apply (GlyphPath_CFF_not_supported cff_font 7 (fl 1000) (fl 0) (fl 0)).
  reflexivity.
Defined.



(** C8 as stated is refuted at the largest end index: with 65536 points,
    all on the curve, the loop counter wraps around before it can exceed
    the end index 65535, and [GlyphPath] does not return. *)
Lemma all_on_curve_contour_not_decoded :
  forallb (fun on => on) (OnCurve full_contour) = true
  /\ Z.of_nat (List.length (OnCurve full_contour)) = 65536
  /\ Z.of_nat (List.length (XCoordinates full_contour)) = 65536
  /\ Z.of_nat (List.length (YCoordinates full_contour)) = 65536
  /\ GlyphPath (font_of full_contour) 0 (fl 1000) (fl 0) (fl 0) = None.
Proof.
  split; [vm_compute; reflexivity |].
  split; [vm_compute; reflexivity |].
  split; [vm_compute; reflexivity |].
  split; [vm_compute; reflexivity |].
  reflexivity.
Qed.

(** C2 as stated is refuted: the glyph holds a contour without points, yet
    [GlyphPath] returns a nil error (and an outline with one more Close). *)
Lemma empty_contour_is_not_an_error :
  has_empty_contour (EndPoints triangle_then_empty) 0 = true
  /\ GlyphPath (font_of triangle_then_empty) 0 (fl 1000) (fl 0) (fl 0)
     = Some (Some (triangle_outline ++ [Close]), None).
Proof. split; reflexivity. Qed.

Lemma empty_contour_adds_close_witness :
  (IsTrueType (font_of triangle_then_empty) = true
   /\ GlyphContour (font_of triangle_then_empty) 0
      = (Some triangle_then_empty, None)
   /\ EndPoints triangle_then_empty = [2] ++ 2 :: []
   /\ decode_contours triangle_then_empty
        (fl 1000 / float64_of_int (UnitsPerEm (font_of triangle_then_empty)))%f64
        (fl 0) (fl 0) [2] ([], 0) = Some (triangle_outline, 3)
   /\ 2 < 3)
  /\ GlyphPath (font_of triangle_then_empty) 0 (fl 1000) (fl 0) (fl 0)
     = Some (Some (triangle_outline ++ [Close]), None).
Proof.
  assert (Hpre : decode_contours triangle_then_empty
            (fl 1000 / float64_of_int (UnitsPerEm (font_of triangle_then_empty)))%f64
            (fl 0) (fl 0) [2] ([], 0) = Some (triangle_outline, 3))
    by reflexivity.
  split; [repeat split; try reflexivity; try exact Hpre |].
  exact (proj1 (proj2 (empty_contour_adds_close (font_of triangle_then_empty)
                  0 (fl 1000) (fl 0) (fl 0) triangle_then_empty [2] [] 2 3
                  triangle_outline eq_refl eq_refl eq_refl Hpre eq_refl))).
Defined.

(** C1 fails on the code.  The contour starts with two off-curve points,
    (0,0) and (200,0), followed by the on-curve point (300,100).  The decoder
    moves to their midpoint (100,0), but leaves its [first] flag set, so the
    third point moves again: the sub-path starts at, and is closed back to,
    (300,100), which is not the midpoint. *)
Theorem off_off_on_start_is_third_point :
  GlyphPath (font_of off_off_on) 0 (fl 1000) (fl 0) (fl 0)
  = Some (Some [MoveTo (fl 100) (fl 0); MoveTo (fl 300) (fl 100);
                QuadTo (fl 150) (fl 50) (fl 300) (fl 100); Close], None)
  /\ StartPos [MoveTo (fl 100) (fl 0); MoveTo (fl 300) (fl 100)]
     = {| X := fl 300; Y := fl 100 |}
  /\ {| X := fl 300; Y := fl 100 |} <> {| X := fl 100; Y := fl 0 |}.
Proof.
  split; [reflexivity |].
  split; [reflexivity |].
  intros Heq.
  apply (f_equal (fun q : @Point binary64 => feqb (X q) (fl 100))) in Heq.
  vm_compute in Heq. discriminate Heq.
Qed.

(** With no third point the start is the midpoint: two off-curve points
    (0,0) and (200,100) give a sub-path that starts at (100,50). *)
Lemma off_off_start_is_midpoint :
  GlyphPath (font_of off_off) 0 (fl 1000) (fl 0) (fl 0)
  = Some (Some [MoveTo (fl 100) (fl 50);
                QuadTo (fl 100) (fl 50) (fl 100) (fl 50); Close], None).
Proof. reflexivity. Qed.

(** ** Glyph positioning *)

Lemma int32_idem (a b : Z) : int32 (int32 a + b) = int32 (a + b).
Proof.
  unfold int32. f_equal.
  replace ((a + 2147483648) mod 4294967296 - 2147483648 + b + 2147483648)
    with ((a + 2147483648) mod 4294967296 + b) by lia.
  rewrite Zplus_mod_idemp_l. f_equal. lia.
Qed.

Lemma int32_int32 (a : Z) : int32 (int32 a) = int32 a.
Proof.
  pose proof (int32_idem a 0) as H. now rewrite !Z.add_0_r in H.
Qed.


Section PositionerFacts.
Context {num : Numeric}.



(** [StringPath] hands back the outline that the loop has built, with the
    error that ended the loop, whenever the shaping font could be made. *)
Lemma StringPath_returns_outline (Text : Type) (NewFont : SFNT -> option error)
  (Shape : SFNT -> Text -> float64 -> list Glyph) (sfnt : SFNT) (text : Text)
  (size : float64) (st' : pen) (err : option error) :
  NewFont sfnt = None ->
  place_glyphs sfnt size (fdiv size (float64_of_int (UnitsPerEm sfnt)))
    (Shape sfnt text size) pen_start = Some (st', err) ->
  StringPath Text NewFont Shape sfnt text size
  = Some (Some (outline st'), err).
Proof.
  intros Hfont Hrun. unfold StringPath. rewrite Hfont.
  unfold pen_start in Hrun. now rewrite Hrun.
Qed.

End PositionerFacts.



(** ** Typographic substitution: termination *)

Lemma DecodeRuneInString_size (s : gostring) :
  s <> [] -> (1 <= snd (DecodeRuneInString s))%nat.
Proof.
  intros Hs. unfold DecodeRuneInString.
  destruct s as [| c s']; [contradiction |].
  cbn [List.length Nat.ltb Nat.leb].
  repeat match goal with
         | |- context [if ?c then _ else _] => destruct c
         end; cbn [snd]; lia.
Qed.

Lemma stringReplace_remaining (s target : gostring) (i n : nat) :
  (i < len s)%nat -> (1 <= n)%nat ->
  (len (fst (stringReplace s i n target))
   - (i + snd (stringReplace s i n target)) < len s - i)%nat.
Proof.
  intros Hi Hn. unfold stringReplace. cbn [fst snd].
  rewrite !length_app, length_firstn, length_skipn. lia.
Qed.

Lemma quoteReplace_remaining (s : gostring) (i : nat) (prev quote next : rune)
  (isOpen : bool) :
  (i < len s)%nat ->
  (len (fst (fst (quoteReplace s i prev quote next isOpen)))
   - (i + snd (fst (quoteReplace s i prev quote next isOpen)))
   < len s - i)%nat.
Proof.
  intros Hi. unfold quoteReplace.
  repeat match goal with
         | |- context [if ?c then _ else _] => destruct c
         end; cbn [fst snd];
    first [apply stringReplace_remaining; lia | lia].
Qed.

(** Every round that does not break leaves strictly fewer bytes to scan. *)
Lemma iteration_decreases (st st' : scanner) :
  iteration st = Continue st' -> (remaining st' < remaining st)%nat.
Proof.
  unfold iteration, remaining, position.
  set (i := (scan_i st + scan_size st)%nat). set (s := scan_s st).
  destruct (Nat.leb_spec (len s) i) as [| Hi]; [discriminate |].
  pose proof (DecodeRuneInString_size (skipn i s)) as Hsize.
  destruct (DecodeRuneInString (skipn i s)) as [r size].
  cbn [snd] in Hsize.
  assert (Hpos : (1 <= size)%nat).
  { apply Hsize. intros Hnil.
    apply (f_equal (@List.length ascii)) in Hnil.
    rewrite length_skipn in Hnil. cbn in Hnil. lia. }
  clear Hsize.
  pose proof (quoteReplace_remaining s i (scan_r st) r (rune_at s (i + 1))
                (scan_inDoubleQuote st) Hi) as Hdouble.
  pose proof (quoteReplace_remaining s i (scan_r st) r (rune_at s (i + 1))
                (scan_inSingleQuote st) Hi) as Hsingle.
  destruct (quoteReplace s i (scan_r st) r (rune_at s (i + 1))
              (scan_inDoubleQuote st)) as [resd opend].
  destruct (quoteReplace s i (scan_r st) r (rune_at s (i + 1))
              (scan_inSingleQuote st)) as [ress opens].
  cbn [fst snd] in Hdouble, Hsingle.
  repeat match goal with
         | |- context [if ?c then _ else _] => destruct c
         end;
    intros Hst; injection Hst as <-;
    cbn [scan_s scan_i scan_size];
    first [ assumption
          | rewrite ?length_app, ?length_firstn; cbn [List.length];
            rewrite ?length_skipn; lia ].
Qed.

Lemma scan_loop_breaks (rounds : nat) :
  forall st : scanner,
    (remaining st < rounds)%nat -> exists st', scan_loop rounds st = Some st'.
Proof.
  induction rounds as [| rounds IH]; intros st Hlt; [lia |].
  cbn [scan_loop].
  destruct (iteration st) as [st' | st'] eqn:Hround.
  - now exists st'.
  - apply IH. apply iteration_decreases in Hround. lia.
Qed.

Lemma scan_loop_more_rounds (rounds : nat) :
  forall (st st' : scanner) (more : nat),
    scan_loop rounds st = Some st' -> (rounds <= more)%nat ->
    scan_loop more st = Some st'.
Proof.
  induction rounds as [| rounds IH]; intros st st' more Hrun Hle;
    [discriminate |].
  destruct more as [| more]; [lia |].
  cbn [scan_loop] in *.
  destruct (iteration st); [assumption |].
  apply (IH _ _ _ Hrun). lia.
Qed.

(** C5. [substituteTypography] is total: for every font setting, input text
    (any byte sequence) and incoming quote flags it returns an output text
    and flags, and that result is the one reached under every larger bound
    on the number of rounds; moreover every round of the loop that
    continues strictly decreases the number of bytes left to scan. *)
Theorem substituteTypography_total (f : Font) (s : gostring)
  (inSingleQuote inDoubleQuote : bool) :
  (exists out single double,
      substituteTypography f s inSingleQuote inDoubleQuote
      = Some (out, single, double)
      /\ forall rounds, (len s < rounds)%nat ->
           substituteTypography_within rounds f s inSingleQuote inDoubleQuote
           = Some (out, single, double))
  /\ (forall st st', iteration st = Continue st' ->
        (remaining st' < remaining st)%nat).
Proof.
  split; [| exact iteration_decreases].
  unfold substituteTypography, substituteTypography_within.
  destruct (typography f).
  - set (st0 := {| scan_s := s; scan_i := 0; scan_size := 0; scan_r := 0;
                   scan_inSingleQuote := inSingleQuote;
                   scan_inDoubleQuote := inDoubleQuote |}).
    destruct (scan_loop_breaks (S (len s)) st0) as [st' Hrun].
    { unfold remaining, position. cbn. lia. }
    exists (scan_s st'), (scan_inSingleQuote st'), (scan_inDoubleQuote st').
    rewrite Hrun. split; [reflexivity |].
    intros rounds Hrounds.
    rewrite (scan_loop_more_rounds _ _ _ rounds Hrun); [reflexivity | lia].
  - exists s, inSingleQuote, inDoubleQuote. split; [reflexivity |].
    intros rounds _. reflexivity.
Qed.

(** ** Typographic substitution: the rules *)

Lemma is_byte_skipn (s : gostring) (i : nat) (c : ascii) :
  is_byte s i c = is_byte (skipn i s) 0 c.
Proof.
  unfold is_byte. rewrite nth_error_skipn. now rewrite Nat.add_0_r.
Qed.

Lemma starts_with_cons (c : ascii) (pat s : gostring) (i : nat) :
  starts_with (c :: pat) (skipn i s)
  = is_byte s i c && starts_with pat (skipn (i + 1) s).
Proof.
  rewrite is_byte_skipn, Nat.add_comm, <- skipn_skipn.
  destruct (skipn i s) as [| b rest]; reflexivity.
Qed.

Lemma is_byte_lt (s : gostring) (k : nat) (c : ascii) :
  is_byte s k c = true -> (k < len s)%nat.
Proof.
  unfold is_byte. intros H. apply nth_error_Some.
  destruct (nth_error s k); [discriminate | discriminate H].
Qed.

Lemma is_byte_other (s : gostring) (k : nat) (c c' : ascii) :
  is_byte s k c = true -> c <> c' -> is_byte s k c' = false.
Proof.
  unfold is_byte. destruct (nth_error s k) as [b |]; [| discriminate].
  intros Hb Hne. apply Ascii.eqb_eq in Hb. subst b.
  now apply Ascii.eqb_neq.
Qed.

Lemma starts_with_2 (a b : ascii) (s : gostring) (i : nat) :
  starts_with [a; b] (skipn i s)
  = is_byte s i a && is_byte s (i + 1) b.
Proof.
  rewrite !starts_with_cons. cbn [starts_with]. now rewrite andb_true_r.
Qed.

Lemma starts_with_3 (a b c : ascii) (s : gostring) (i : nat) :
  starts_with [a; b; c] (skipn i s)
  = is_byte s i a && is_byte s (i + 1) b && is_byte s (i + 2) c.
Proof.
  rewrite !starts_with_cons. cbn [starts_with].
  replace (i + 1 + 1)%nat with (i + 2)%nat by lia.
  now rewrite andb_true_r, andb_assoc.
Qed.

Lemma ltb_true (a b : nat) : (a < b)%nat -> (a <? b)%nat = true.
Proof. intros H. now apply Nat.ltb_lt. Qed.

(** Rewrites the byte tests of the goal with the bytes known to be at the
    scan position, then folds the conjunctions that have become false. *)
Ltac known_bytes :=
  unfold double_quote, single_quote in *;
  repeat match goal with
         | H : is_byte ?s ?k ?c = true |- context [is_byte ?s ?k ?c'] =>
             first [ rewrite H
                   | rewrite (is_byte_other s k c c' H) by discriminate ]
         end;
  repeat match goal with
         | H : is_byte _ ?k _ = true |- context [(?k <? ?n)%nat] =>
             rewrite (ltb_true k n (is_byte_lt _ _ _ H))
         end;
  rewrite ?andb_false_r; cbn [andb orb].

(** C6. With the substitutions enabled, a round of the scan that finds
    three hyphens at its position replaces them by an em-dash (U+2014); one
    that finds two hyphens not followed by a third replaces them by an
    en-dash (U+2013): the longer form is tried first.  In both cases the
    scan resumes right after the dash.  The input 1870--1880 comes out with
    an en-dash between the years. *)
Theorem dashes_longest_first :
  (forall st : scanner,
      let i := position st in
      let s := scan_s st in
      (starts_with (go "---") (skipn i s) = true ->
       exists st', iteration st = Continue st'
         /\ scan_s st' = firstn i s ++ em_dash ++ skipn (i + 3) s
         /\ position st' = (i + len em_dash)%nat)
      /\ (starts_with (go "--") (skipn i s) = true ->
          starts_with (go "---") (skipn i s) = false ->
          exists st', iteration st = Continue st'
            /\ scan_s st' = firstn i s ++ en_dash ++ skipn (i + 2) s
            /\ position st' = (i + len en_dash)%nat))
  /\ fst (DecodeRuneInString em_dash) = 0x2014
  /\ fst (DecodeRuneInString en_dash) = 0x2013
  /\ substituteTypography typographic (go "1870--1880") false false
     = Some (go "1870" ++ en_dash ++ go "1880", false, false)
  /\ substituteTypography typographic (go "1870---1880") false false
     = Some (go "1870" ++ em_dash ++ go "1880", false, false).
Proof.
  split; [| repeat split; reflexivity].
  intros st i s. unfold position in i. split.
  - intros Hpat. cbn [go list_ascii_of_string] in Hpat.
    rewrite starts_with_3 in Hpat.
    apply andb_prop in Hpat. destruct Hpat as [Hpat H2].
    apply andb_prop in Hpat. destruct Hpat as [H0 H1].
    unfold iteration. fold i. fold s.
    destruct (Nat.leb_spec (len s) i) as [Hle | _];
      [apply is_byte_lt in H0; lia |].
    destruct (DecodeRuneInString (skipn i s)) as [r size].
    known_bytes.
    eexists. split; [reflexivity |]. split; reflexivity.
  - intros Hpat Hnot. cbn [go list_ascii_of_string] in Hpat, Hnot.
    rewrite starts_with_3 in Hnot. rewrite starts_with_2 in Hpat.
    rewrite Hpat in Hnot. cbn [andb] in Hnot.
    apply andb_prop in Hpat. destruct Hpat as [H0 H1].
    unfold iteration. fold i. fold s.
    destruct (Nat.leb_spec (len s) i) as [Hle | _];
      [apply is_byte_lt in H0; lia |].
    destruct (DecodeRuneInString (skipn i s)) as [r size].
    rewrite Hnot. known_bytes.
    eexists. split; [reflexivity |]. split; reflexivity.
Qed.

(** What the next round holds as the rune before its position: the rune
    that this round decoded at its own position, in the text as it was
    before this round replaced anything; and the next position lies right
    after what this round left there. *)
Lemma next_round_previous_rune (st st' : scanner) :
  iteration st = Continue st' ->
  scan_r st' = fst (DecodeRuneInString (skipn (position st) (scan_s st)))
  /\ scan_i st' = position st.
Proof.
  unfold iteration, position.
  destruct (len (scan_s st) <=? scan_i st + scan_size st)%nat;
    [discriminate |].
  destruct (DecodeRuneInString _) as [r size]. cbn [fst].
  destruct (quoteReplace _ _ _ _ _ (scan_inDoubleQuote st)) as [resd opend].
  destruct (quoteReplace _ _ _ _ _ (scan_inSingleQuote st)) as [ress opens].
  repeat match goal with
         | |- context [if ?c then _ else _] => destruct c
         end;
    intros Hst; injection Hst as <-; split; reflexivity.
Qed.



(** ** Font faces *)

Section DeepEqualFacts.
Variable DeepEqual_value : Z -> Z -> Z -> bool.







End DeepEqualFacts.


Section FaceFacts.
Context {num : Numeric}.


Section ToPathFacts.
Variable toI26_6 : float64 -> Z.
Variable fromI26_6 : Z -> float64.
Variable Point_Equals : Point -> Point -> bool.
Variable Empty : Path -> bool.
Variable Offset : Path -> float64 -> Path.
Variable sfnt_of : pointer -> sfntFont.

(** The loop over the runes stops at the first rune that fails to load: it
    returns the path built so far, with advance 0.0. *)
Lemma ToPath_loop_stops (ff : FontFace) (pre post : list (nat * rune))
  (i : nat) (r : rune) :
  forallb (fun ir => loads (sfnt_of (Font_ ff))
                       (toI26_6 (fmul (Size ff) (Scale ff))) (snd ir)) pre
  = true ->
  loads (sfnt_of (Font_ ff)) (toI26_6 (fmul (Size ff) (Scale ff))) r = false ->
  forall st : layout,
    ToPath_loop toI26_6 fromI26_6 Point_Equals Empty Offset sfnt_of ff
      (pre ++ (i, r) :: post) st
    = (fst (ToPath_loop toI26_6 fromI26_6 Point_Equals Empty Offset sfnt_of
              ff pre st), f_zero).
Proof.
  intros Hpre Hfail.
  induction pre as [| [k c] pre IH]; intros st; cbn [app ToPath_loop].
  - unfold loads in Hfail. cbn [fst lay_p].
    destruct GlyphIndex as [index | err]; [| reflexivity].
    destruct LoadGlyph; [discriminate | reflexivity].
  - cbn [forallb snd] in Hpre. apply andb_prop in Hpre.
    destruct Hpre as [Hc Hrest]. unfold loads in Hc.
    destruct GlyphIndex as [index | err]; [| discriminate].
    destruct LoadGlyph as [segments | err]; [| discriminate].
    apply (IH Hrest).
Qed.

(** C10. If, on the string [s], the runes before some rune [r] all load
    and [r] meets a glyph-index error or a glyph-load error, then [ToPath]
    returns the path accumulated from the runes before [r] together with the
    advance 0.0; its result has no error component. *)
Theorem ToPath_error_returns_zero_advance (ff : FontFace) (s : gostring)
  (pre post : list (nat * rune)) (i : nat) (r : rune) :
  range_string s = pre ++ (i, r) :: post ->
  forallb (fun ir => loads (sfnt_of (Font_ ff))
                       (toI26_6 (fmul (Size ff) (Scale ff))) (snd ir)) pre
  = true ->
  loads (sfnt_of (Font_ ff)) (toI26_6 (fmul (Size ff) (Scale ff))) r = false ->
  ToPath toI26_6 fromI26_6 Point_Equals Empty Offset sfnt_of ff s
  = (fst (ToPath_loop toI26_6 fromI26_6 Point_Equals Empty Offset sfnt_of ff
            pre layout_start), f_zero).
Proof.
  intros Hrange Hpre Hfail. unfold ToPath. rewrite Hrange.
  now apply ToPath_loop_stops.
Qed.

End ToPathFacts.
End FaceFacts.

(** C9 as stated is refuted.  A face whose size is not a number references
    the same font as itself and has the very same size, style, variant,
    colour and decorations, yet does not equal itself; and the sample face
    does not equal the face that differs from it only in having an empty
    decoration list where it has none. *)
Lemma Equals_differs_from_agreement :
  Equals sample_DeepEqual_value nan_face nan_face = false
  /\ Equals sample_DeepEqual_value sample_face undecorated_face = false
  /\ deco sample_face = None
  /\ option_map elements (deco undecorated_face) = Some [].
Proof. repeat split; reflexivity. Qed.

(** After a replacement the scanner goes on with the rune it had read
    before replacing: the fraction after an ellipsis counts the full stop,
    a punctuation mark, as the rune before it. *)
Remark fraction_after_ellipsis :
  substituteTypography typographic (go "...1/2") false false
  = Some (ellipsis ++ one_half, false, false).
Proof. reflexivity. Qed.

Lemma ToPath_error_returns_zero_advance_witness :
  (range_string (go "AB?C")
   = [(0%nat, 65); (1%nat, 66)] ++ (2%nat, 63) :: [(3%nat, 67)]
   /\ forallb (fun ir => loads capitals 768 (snd ir)) [(0%nat, 65); (1%nat, 66)]
      = true
   /\ loads capitals 768 63 = false)
  /\ sample_ToPath (go "AB?C") = (fst (sample_ToPath (go "AB")), fl 0)
  /\ snd (sample_ToPath (go "AB")) = fl 20.
Proof.
  split; [repeat split |].
  split; [| reflexivity].
  unfold sample_ToPath.
  rewrite (ToPath_error_returns_zero_advance sample_toI26_6 sample_fromI26_6
             sample_Point_Equals sample_Empty sample_Offset sample_sfnt_of
             sample_face (go "AB?C")
             [(0%nat, 65); (1%nat, 66)] [(3%nat, 67)] 2 63
             eq_refl eq_refl eq_refl).
  reflexivity.
Defined.

(** The two-hyphen rule at work on 1870--1880. *)
Lemma dashes_longest_first_witness :
  (starts_with (go "--") (skipn (position at_the_hyphens)
                            (scan_s at_the_hyphens)) = true
   /\ starts_with (go "---") (skipn (position at_the_hyphens)
                                (scan_s at_the_hyphens)) = false)
  /\ exists st', iteration at_the_hyphens = Continue st'
       /\ scan_s st' = go "1870" ++ en_dash ++ go "1880".
Proof.
  split; [split; reflexivity |].
  destruct (proj2 (proj1 dashes_longest_first at_the_hyphens)
              eq_refl eq_refl) as (st' & Hstep & Htext & _).
  exists st'. split; [exact Hstep | exact Htext].
Defined.


(** * Further properties *)

(** ** The shape of decoded outlines *)

Section OutlineFacts.
Context {num : Numeric}.
Local Open Scope f64_scope.

(** A round of the point loop sends at most drawing operations. *)
Lemma point_draws contour f x y (i : Z) (d d' : decoder) :
  point contour f x y i d = Some d' ->
  exists ops, p d' = p d ++ ops /\ forallb drawing ops = true.
Proof.
  unfold point, emit. intros H.
  repeat match type of H with
         | match ?e with _ => _ end = _ => destruct e eqn:?; try discriminate
         | (if ?e then _ else _) = _ => destruct e eqn:?
         end;
    injection H as <-; cbn [p];
    first [ exists []; split; [now rewrite app_nil_r | reflexivity]
          | eexists; split; [reflexivity | reflexivity] ].
Qed.

Lemma points_draw contour f x y (n : nat) :
  forall (i i' : Z) (d d' : decoder),
    points contour f x y n i d = Some (i', d') ->
    exists ops, p d' = p d ++ ops /\ forallb drawing ops = true.
Proof.
  induction n as [| n IH]; intros i i' d d' H; cbn [points] in H.
  - injection H as _ <-. exists []. split; [now rewrite app_nil_r | reflexivity].
  - destruct (point contour f x y i d) as [d1 |] eqn:Hpoint; [| discriminate].
    destruct (point_draws _ _ _ _ _ _ _ Hpoint) as (ops1 & H1 & Hd1).
    destruct (IH _ _ _ _ H) as (ops2 & H2 & Hd2).
    exists (ops1 ++ ops2). split.
    + now rewrite H2, H1, app_assoc.
    + now rewrite forallb_app, Hd1, Hd2.
Qed.

Lemma close_contour_draws contour f x y (j i : Z) (d : decoder) (q : Path) :
  close_contour contour f x y j i d = Some q ->
  exists ops, q = p d ++ closed ops /\ forallb drawing ops = true.
Proof.
  unfold close_contour, closed. intros H.
  repeat match type of H with
         | match ?e with _ => _ end = _ => destruct e eqn:?; try discriminate
         | (if ?e then _ else _) = _ => destruct e eqn:?
         end;
    injection H as <-;
    first [ now exists []
          | match goal with
            | |- exists _, _ ++ [?c; Close] = _ /\ _ =>
                exists [c]; split; reflexivity
            end ].
Qed.

(** One contour adds one closed sub-path of drawing operations. *)
Lemma decode_contour_closed contour f x y (e : Z) (s s' : Path * Z) :
  decode_contour contour f x y e s = Some s' ->
  exists ops, fst s' = fst s ++ closed ops /\ forallb drawing ops = true.
Proof.
  unfold decode_contour. intros H.
  destruct scan_points as [[i' d'] |] eqn:Hscan in H; [| discriminate].
  cbn [fst snd] in H.
  destruct close_contour as [q |] eqn:Hclose in H; [| discriminate].
  injection H as <-. cbn [fst].
  apply close_contour_draws in Hclose. destruct Hclose as (ops2 & H2 & Hd2).
  assert (Hops1 : exists ops1, p d' = fst s ++ ops1
                               /\ forallb drawing ops1 = true).
  { unfold scan_points in Hscan.
    destruct (e <? snd s)%Z.
    - injection Hscan as _ <-. exists []. cbn [p].
      split; [now rewrite app_nil_r | reflexivity].
    - destruct (e =? 65535)%Z; [discriminate |].
      apply points_draw in Hscan. exact Hscan. }
  destruct Hops1 as (ops1 & H1 & Hd1).
  exists (ops1 ++ ops2). split.
  - unfold closed in *. now rewrite H2, H1, !app_assoc.
  - now rewrite forallb_app, Hd1, Hd2.
Qed.

Lemma decode_contours_closed contour f x y (ends : list Z) :
  forall s s' : Path * Z,
    decode_contours contour f x y ends s = Some s' ->
    exists subs : list Path,
      fst s' = fst s ++ List.concat (map closed subs)
      /\ List.length subs = List.length ends
      /\ forallb (forallb drawing) subs = true.
Proof.
  induction ends as [| e ends IH]; intros s s' H; cbn [decode_contours] in H.
  - injection H as <-. exists []. cbn. now rewrite app_nil_r.
  - destruct decode_contour as [s1 |] eqn:H1 in H; [| discriminate].
    apply decode_contour_closed in H1. destruct H1 as (ops & H1 & Hd1).
    apply IH in H. destruct H as (subs & H2 & Hlen & Hd2).
    exists (ops :: subs). cbn [map List.concat List.length forallb].
    rewrite H2, H1, Hd1, Hd2, Hlen, <- app_assoc. now repeat split.
Qed.

(** X1. Whenever [GlyphPath] returns an error, the path it returns is nil,
    and the error is either "CFF not supported" (the font is not TrueType)
    or the error that [GlyphContour] gave: decoding the contours never
    produces an error of its own. *)
Theorem GlyphPath_error_without_path (sfnt : SFNT) (glyphID : Z)
  (size x y : float64) (out : option Path) (err : error) :
  GlyphPath sfnt glyphID size x y = Some (out, Some err) ->
  out = None
  /\ ((IsTrueType sfnt = false /\ err = "CFF not supported"%string)
      \/ (IsTrueType sfnt = true
          /\ snd (GlyphContour sfnt glyphID) = Some err)).
Proof.
  unfold GlyphPath. intros H.
  destruct (IsTrueType sfnt).
  - destruct (GlyphContour sfnt glyphID) as [[contour |] [e |]];
      cbn [snd]; try discriminate.
    + injection H as <- <-. split; [reflexivity | now right].
    + destruct decode_contours; discriminate.
    + injection H as <- <-. split; [reflexivity | now right].
  - injection H as <- <-. split; [reflexivity | now left].
Qed.

(** X2. An outline that [GlyphPath] returns is, contour by contour in the
    order of the end points, a run of MoveTo, LineTo and QuadTo operations
    followed by one Close: as many Close operations as the glyph has
    contours, each one last in its sub-path, and no cubic curve. *)
Theorem GlyphPath_one_close_per_contour (sfnt : SFNT) (glyphID : Z)
  (size x y : float64) (contour : glyfContour) (out : Path) :
  GlyphContour sfnt glyphID = (Some contour, None) ->
  GlyphPath sfnt glyphID size x y = Some (Some out, None) ->
  exists subs : list Path,
    out = List.concat (map closed subs)
    /\ List.length subs = List.length (EndPoints contour)
    /\ forallb (forallb drawing) subs = true.
Proof.
  unfold GlyphPath. intros Hcontour H. rewrite Hcontour in H.
  destruct (IsTrueType sfnt); [| discriminate].
  destruct decode_contours as [r |] eqn:Hrun in H; [| discriminate].
  injection H as <-.
  apply decode_contours_closed in Hrun. exact Hrun.
Qed.







Lemma xMid_value contour (a b : Z) :
  (0 <= a < Z.of_nat (List.length (XCoordinates contour)))%Z ->
  (0 <= b < Z.of_nat (List.length (XCoordinates contour)))%Z ->
  xMid contour a b
  = Some (float64_of_int
            (coord_add (nth (Z.to_nat a) (XCoordinates contour) 0%Z)
                       (nth (Z.to_nat b) (XCoordinates contour) 0%Z))
          / f_two).
Proof.
  intros Ha Hb. unfold xMid.
  now rewrite (index_nth _ _ 0%Z Ha), (index_nth _ _ 0%Z Hb).
Qed.

Lemma yMid_value contour (a b : Z) :
  (0 <= a < Z.of_nat (List.length (YCoordinates contour)))%Z ->
  (0 <= b < Z.of_nat (List.length (YCoordinates contour)))%Z ->
  yMid contour a b
  = Some (float64_of_int
            (coord_add (nth (Z.to_nat a) (YCoordinates contour) 0%Z)
                       (nth (Z.to_nat b) (YCoordinates contour) 0%Z))
          / f_two).
Proof.
  intros Ha Hb. unfold yMid.
  now rewrite (index_nth _ _ 0%Z Ha), (index_nth _ _ 0%Z Hb).
Qed.

(** *** When the decoder returns *)

(** A round of the point loop returns when its point exists, and with a
    control point pending also the point before. *)
Lemma point_returns contour f x y (i : Z) (d : decoder) :
  (0 <= i <= 65535)%Z -> present contour i ->
  (prevOff d = true -> (1 <= i)%Z /\ present contour (i - 1)) ->
  exists d', point contour f x y i d = Some d'.
Proof.
  intros Hi (Ho & Hx & Hy) Hprev. unfold point.
  rewrite (index_nth _ _ false Ho).
  rewrite (px_vertex _ _ _ _ Hx), (py_vertex _ _ _ _ Hy).
  destruct (prevOff d) eqn:Hoff.
  - destruct (Hprev eq_refl) as (H1 & _ & Hx1 & Hy1).
    assert (Hu : uint16 (i - 1) = (i - 1)%Z)
      by (unfold uint16; rewrite Z.mod_small; lia).
    rewrite Hu.
    rewrite (xMid_value _ _ _ Hx1 Hx), (yMid_value _ _ _ Hy1 Hy),
      (px_vertex _ _ _ _ Hx1), (py_vertex _ _ _ _ Hy1).
    destruct (first d), (nth (Z.to_nat i) (OnCurve contour) false);
      cbn; eexists; reflexivity.
  - destruct (first d), (nth (Z.to_nat i) (OnCurve contour) false);
      cbn; eexists; reflexivity.
Qed.

(** The setting of [prevOff] by a round of the point loop does not matter
    to the next round but through the point it leaves behind. *)
Lemma points_return contour f x y (j e : Z) (n : nat) :
  forall (i : Z) (d : decoder),
    (0 <= j <= i)%Z -> (e < 65535)%Z -> (i + Z.of_nat n <= e + 1)%Z ->
    (prevOff d = true -> (j < i)%Z) ->
    (forall k, (j <= k <= e)%Z -> present contour k) ->
    exists d', points contour f x y n i d = Some ((i + Z.of_nat n)%Z, d').
Proof.
  induction n as [| n IH]; intros i d Hj He Hn Hprev Hall; cbn [points].
  - exists d. now rewrite Z.add_0_r.
  - destruct (point_returns contour f x y i d) as [d1 H1].
    + lia.
    + apply Hall. lia.
    + intros Hoff. specialize (Hprev Hoff).
      split; [lia | apply Hall; lia].
    + rewrite H1. cbn.
      destruct (IH (i + 1)%Z d1) as [d' H']; try lia; try assumption.
      exists d'. rewrite H'. do 2 f_equal. lia.
Qed.

Lemma close_contour_returns contour f x y (j i : Z) (d : decoder) :
  (0 <= j < i)%Z -> (i <= 65535)%Z ->
  present contour j -> present contour (i - 1) ->
  exists q', close_contour contour f x y j i d = Some q'.
Proof.
  intros Hj Hi (_ & Hxj & Hyj) (_ & Hx & Hy). unfold close_contour.
  assert (Hu : uint16 (i - 1) = (i - 1)%Z)
    by (unfold uint16; rewrite Z.mod_small; lia).
  rewrite Hu.
  rewrite (xMid_value _ _ _ Hx Hxj), (yMid_value _ _ _ Hy Hyj),
    (px_vertex _ _ _ _ Hx), (py_vertex _ _ _ _ Hy).
  destruct (firstOff d), (prevOff d); cbn; eexists; reflexivity.
Qed.

(** One round of the loop over the contours returns when the end index is
    below 65535 and the points of the contour exist; the point index moves
    just past the end index, or stays for a contour without points. *)
Lemma decode_contour_returns contour f x y (e j : Z) (q : Path) :
  (0 <= j)%Z -> (e < 65535)%Z ->
  (forall k, (j <= k <= e)%Z -> present contour k) ->
  exists q', decode_contour contour f x y e (q, j)
             = Some (q', Z.max j (e + 1)).
Proof.
  intros Hj He Hall. unfold decode_contour, scan_points. cbn [fst snd].
  destruct (Z.ltb_spec e j) as [Hlt | Hle].
  - cbn. exists (q ++ [Close]). do 2 f_equal. lia.
  - destruct (Z.eqb_spec e 65535) as [? | _]; [lia |].
    destruct (points_return contour f x y j e (Z.to_nat (e - j + 1)) j
                {| p := q; first := true; firstOff := false;
                   prevOff := false |}) as [d' Hd'];
      try lia; try assumption; [discriminate |].
    rewrite Hd'. cbn [fst snd].
    replace (j + Z.of_nat (Z.to_nat (e - j + 1)))%Z with (e + 1)%Z by lia.
    destruct (close_contour_returns contour f x y j (e + 1) d')
      as [q' Hq']; try lia.
    + apply Hall. lia.
    + replace (e + 1 - 1)%Z with e by lia. apply Hall. lia.
    + rewrite Hq'. exists q'. cbn. do 2 f_equal. lia.
Qed.

Lemma decode_contours_return contour f x y (ends : list Z) :
  forall (q : Path) (j : Z),
    (0 <= j)%Z ->
    (forall e, In e ends ->
       (e < 65535)%Z /\ forall k, (0 <= k <= e)%Z -> present contour k) ->
    exists s', decode_contours contour f x y ends (q, j) = Some s'.
Proof.
  induction ends as [| e ends IH]; intros q j Hj Hall; cbn [decode_contours].
  - now exists (q, j).
  - destruct (Hall e (or_introl eq_refl)) as [He Hpresent].
    destruct (decode_contour_returns contour f x y e j q Hj He) as [q' Hq'].
    + intros k Hk. apply Hpresent. lia.
    + rewrite Hq'. cbn. apply IH; [lia |].
      intros e' He'. apply Hall. now right.
Qed.

(** X19. [GlyphPath] returns, with an outline and a nil error, for every
    TrueType glyph whose contour end indices all lie below 65535 and whose
    points up to each end index exist in the three point arrays (flags, x
    and y coordinates).  When the loop over the contours comes to an end
    index of 65535 that is not below the running point index, the loop
    over the points has no exit and [GlyphPath] does not return. *)
Theorem GlyphPath_returns (sfnt : SFNT) (glyphID : Z) (size x y : float64)
  (contour : glyfContour) :
  IsTrueType sfnt = true ->
  GlyphContour sfnt glyphID = (Some contour, None) ->
  ((forall e, In e (EndPoints contour) ->
      (e < 65535)%Z /\ forall k, (0 <= k <= e)%Z -> present contour k) ->
   exists out, GlyphPath sfnt glyphID size x y = Some (Some out, None))
  /\ (forall pre post q j,
        EndPoints contour = pre ++ 65535%Z :: post ->
        decode_contours contour (size / float64_of_int (UnitsPerEm sfnt))
          x y pre ([], 0%Z) = Some (q, j) ->
        (j <= 65535)%Z ->
        GlyphPath sfnt glyphID size x y = None).
Proof.
  intros Htt Hcontour. unfold GlyphPath. rewrite Htt, Hcontour. cbv zeta.
  split.
  - intros Hall.
    destruct (decode_contours_return contour
                (size / float64_of_int (UnitsPerEm sfnt)) x y
                (EndPoints contour) [] 0%Z ltac:(lia) Hall) as [s' Hs'].
    exists (fst s').
    match goal with
    | |- context [decode_contours ?c ?f ?a ?b ?ends ?s] =>
        replace (decode_contours c f a b ends s) with (Some s')
          by (symmetry; exact Hs')
    end.
    reflexivity.
  - intros pre post q j Hends Hpre Hj.
    rewrite Hends, decode_contours_app, Hpre. cbn [decode_contours].
    unfold decode_contour, scan_points. cbn [fst snd].
    destruct (Z.ltb_spec 65535 j) as [? | _]; [lia |]. reflexivity.
Qed.









End OutlineFacts.

(** ** The outline theorems on the sample glyphs *)

Lemma GlyphPath_error_without_path_witness :
  GlyphPath broken_font 3 (fl 1000) (fl 0) (fl 0)
  = Some (None, Some "glyph out of range"%string)
  /\ ((IsTrueType broken_font = false
       /\ "glyph out of range"%string = "CFF not supported"%string)
      \/ (IsTrueType broken_font = true
          /\ snd (GlyphContour broken_font 3)
             = Some "glyph out of range"%string)).
Proof.
  assert (Hrun : GlyphPath broken_font 3 (fl 1000) (fl 0) (fl 0)
                 = Some (None, Some "glyph out of range"%string))
    by reflexivity.
  split; [exact Hrun |].
  exact (proj2 (GlyphPath_error_without_path _ _ _ _ _ _ _ Hrun)).
Defined.

Lemma GlyphPath_one_close_per_contour_witness :
  (GlyphContour (font_of triangle_then_empty) 0
   = (Some triangle_then_empty, None)
   /\ GlyphPath (font_of triangle_then_empty) 0 (fl 1000) (fl 0) (fl 0)
      = Some (Some (triangle_outline ++ [Close]), None))
  /\ exists subs : list Path,
       triangle_outline ++ [Close] = List.concat (map closed subs)
       /\ List.length subs = 2%nat
       /\ forallb (forallb drawing) subs = true.
Proof.
  assert (Hrun : GlyphPath (font_of triangle_then_empty) 0 (fl 1000) (fl 0)
                   (fl 0)
                 = Some (Some (triangle_outline ++ [Close]), None))
    by reflexivity.
  split; [split; [reflexivity | exact Hrun] |].
  exact (GlyphPath_one_close_per_contour (font_of triangle_then_empty) 0
           (fl 1000) (fl 0) (fl 0) triangle_then_empty _ eq_refl Hrun).
Defined.









Lemma triangle_then_empty_points (e : Z) :
  In e (EndPoints triangle_then_empty) ->
  e < 65535 /\ forall k, 0 <= k <= e -> present triangle_then_empty k.
Proof.
  intros [<- | [<- | []]]; (split; [lia |]);
    intros k Hk; repeat split; cbn; lia.
Defined.

Lemma GlyphPath_returns_witness :
  (IsTrueType (font_of triangle_then_empty) = true
   /\ GlyphContour (font_of triangle_then_empty) 0
      = (Some triangle_then_empty, None)
   /\ forall e, In e (EndPoints triangle_then_empty) ->
        e < 65535 /\ forall k, 0 <= k <= e -> present triangle_then_empty k)
  /\ exists out,
       GlyphPath (font_of triangle_then_empty) 0 (fl 1000) (fl 0) (fl 0)
       = Some (Some out, None).
Proof.
  split.
  - split; [reflexivity |]. split; [reflexivity |].
    exact triangle_then_empty_points.
  - exact (proj1 (GlyphPath_returns (font_of triangle_then_empty) 0
                    (fl 1000) (fl 0) (fl 0) triangle_then_empty
                    eq_refl eq_refl) triangle_then_empty_points).
Defined.

(** ** The loop over the glyphs of a run *)

Lemma sum_XAdvance_app (pre post : list Glyph) :
  sum_XAdvance (pre ++ post) = sum_XAdvance pre + sum_XAdvance post.
Proof.
  unfold sum_XAdvance. induction pre as [| g pre IH]; cbn; [reflexivity | lia].
Qed.

Lemma sum_YAdvance_app (pre post : list Glyph) :
  sum_YAdvance (pre ++ post) = sum_YAdvance pre + sum_YAdvance post.
Proof.
  unfold sum_YAdvance. induction pre as [| g pre IH]; cbn; [reflexivity | lia].
Qed.

Section RunFacts.
Context {num : Numeric}.
Local Open Scope f64_scope.

(** The loop over a run is the loop over its first part, then, if that met
    no error, the loop over the rest from the pen it reached. *)
Lemma place_glyphs_app (sfnt : SFNT) (size f : float64)
  (pre post : list Glyph) :
  forall st : pen,
    place_glyphs sfnt size f (pre ++ post) st
    = (r <- place_glyphs sfnt size f pre st ;;
       match snd r with
       | Some err => Some r
       | None => place_glyphs sfnt size f post (fst r)
       end).
Proof.
  induction pre as [| g pre IH]; intros st; cbn [app place_glyphs].
  - cbn. destruct (place_glyphs sfnt size f post st); reflexivity.
  - destruct GlyphPath as [[path [err |]] |]; try reflexivity. apply IH.
Qed.

(** Both pen coordinates are the sums of the advances, in [int32]. *)
Lemma place_glyphs_pen (sfnt : SFNT) (size f : float64)
  (glyphs : list Glyph) :
  forall st st' : pen,
    place_glyphs sfnt size f glyphs st = Some (st', None) ->
    pen_x st = int32 (pen_x st) -> pen_y st = int32 (pen_y st) ->
    pen_x st' = int32 (pen_x st + sum_XAdvance glyphs)
    /\ pen_y st' = int32 (pen_y st + sum_YAdvance glyphs).
Proof.
  induction glyphs as [| g rest IH]; intros st st' Hrun Hx Hy;
    cbn [place_glyphs] in Hrun.
  - injection Hrun as <-. cbn. now rewrite !Z.add_0_r.
  - destruct GlyphPath as [[path [err |]] |] in Hrun; try discriminate.
    apply IH in Hrun; cbn [pen_x pen_y]; try now rewrite int32_int32.
    cbn [pen_x pen_y] in Hrun. destruct Hrun as [Hpx Hpy].
    rewrite Hpx, Hpy, !int32_idem.
    unfold sum_XAdvance, sum_YAdvance. cbn [fold_right].
    split; f_equal; lia.
Qed.

(** X5. In a run whose earlier glyphs all decode, the next glyph is decoded
    with its origin at the [int32] sum of the earlier advances plus its own
    offset (in both coordinates, scaled by [f]); when it decodes, its
    outline is appended to the outline so far and the pen moves on by its
    advance. *)
Theorem glyph_placed_at_running_sum (sfnt : SFNT) (size f : float64)
  (pre : list Glyph) (glyph : Glyph) (st1 : pen) (path : option Path) :
  place_glyphs sfnt size f pre pen_start = Some (st1, None) ->
  GlyphPath sfnt (ID glyph) size
    (float64_of_int (int32 (int32 (sum_XAdvance pre) + XOffset glyph)) * f)
    (float64_of_int (int32 (int32 (sum_YAdvance pre) + YOffset glyph)) * f)
  = Some (path, None) ->
  place_glyphs sfnt size f (pre ++ [glyph]) pen_start
  = Some ({| outline := match path with
                        | Some q => outline st1 ++ q
                        | None => outline st1
                        end;
             pen_x := int32 (sum_XAdvance (pre ++ [glyph]));
             pen_y := int32 (sum_YAdvance (pre ++ [glyph])) |}, None).
Proof.
  intros Hpre Hglyph.
  destruct (place_glyphs_pen _ _ _ _ _ _ Hpre eq_refl eq_refl) as [Hx Hy].
  cbn [pen_start pen_x pen_y] in Hx, Hy. rewrite Z.add_0_l in Hx, Hy.
  rewrite place_glyphs_app, Hpre. cbn [fst snd place_glyphs].
  rewrite Hx, Hy, Hglyph. unfold Append.
  rewrite sum_XAdvance_app, sum_YAdvance_app, !int32_idem.
  unfold sum_XAdvance, sum_YAdvance. cbn [fold_right].
  now rewrite !Z.add_0_r.
Qed.

(** X6. When a glyph of the run fails to decode, [StringPath] stops there:
    it returns the outline of the glyphs before it, unchanged, together
    with the error of that glyph; the glyphs after it are not looked at. *)
Theorem StringPath_stops_at_failing_glyph (Text : Type)
  (NewFont : SFNT -> option error)
  (Shape : SFNT -> Text -> float64 -> list Glyph) (sfnt : SFNT) (text : Text)
  (size : float64) (pre post : list Glyph) (glyph : Glyph) (st1 : pen)
  (path : option Path) (err : error) :
  NewFont sfnt = None ->
  Shape sfnt text size = pre ++ glyph :: post ->
  place_glyphs sfnt size (size / float64_of_int (UnitsPerEm sfnt)) pre
    pen_start = Some (st1, None) ->
  GlyphPath sfnt (ID glyph) size
    (float64_of_int (int32 (pen_x st1 + XOffset glyph))
     * (size / float64_of_int (UnitsPerEm sfnt)))
    (float64_of_int (int32 (pen_y st1 + YOffset glyph))
     * (size / float64_of_int (UnitsPerEm sfnt)))
  = Some (path, Some err) ->
  StringPath Text NewFont Shape sfnt text size
  = Some (Some (outline st1), Some err).
Proof.
  intros Hfont Hshape Hpre Hglyph. unfold StringPath.
  rewrite Hfont, Hshape, place_glyphs_app.
  fold (@pen_start num). rewrite Hpre. cbn [fst snd place_glyphs].
  now rewrite Hglyph.
Qed.

End RunFacts.

Lemma glyph_placed_at_running_sum_witness :
  (place_glyphs (font_of triangle) (fl 1000) (fl 1) [hd_glyph three_glyphs]
     pen_start
   = Some ({| outline := first_glyph_outline; pen_x := 500; pen_y := 0 |},
           None)
   /\ GlyphPath (font_of triangle) 2 (fl 1000) (fl 500) (fl 0)
      = Some (Some second_glyph_outline, None))
  /\ place_glyphs (font_of triangle) (fl 1000) (fl 1)
       (firstn 2 three_glyphs) pen_start
     = Some ({| outline := first_glyph_outline ++ second_glyph_outline;
                pen_x := 1120; pen_y := 0 |}, None).
Proof.
  split; [split; reflexivity |].
  exact (glyph_placed_at_running_sum (font_of triangle) (fl 1000) (fl 1)
           [hd_glyph three_glyphs] (nth 1 three_glyphs (hd_glyph three_glyphs))
           {| outline := first_glyph_outline; pen_x := 500; pen_y := 0 |}
           (Some second_glyph_outline) eq_refl eq_refl).
Defined.

Lemma StringPath_stops_at_failing_glyph_witness :
  (place_glyphs partial_font (fl 1000)
     (fl 1000 / float64_of_int (UnitsPerEm partial_font))%f64
     [hd_glyph run_with_gap] pen_start
   = Some ({| outline := first_glyph_outline; pen_x := 500; pen_y := 0 |},
           None)
   /\ GlyphPath partial_font 9 (fl 1000) (fl 500) (fl 0)
      = Some (None, Some "glyph out of range"%string))
  /\ StringPath gostring (fun _ => None) (fun _ _ _ => run_with_gap)
       partial_font (go "abc") (fl 1000)
     = Some (Some first_glyph_outline, Some "glyph out of range"%string).
Proof.
  split; [split; reflexivity |].
  exact (StringPath_stops_at_failing_glyph gostring (fun _ => None)
           (fun _ _ _ => run_with_gap) partial_font (go "abc") (fl 1000)
           [hd_glyph run_with_gap] (skipn 2 run_with_gap)
           (nth 1 run_with_gap (hd_glyph run_with_gap))
           {| outline := first_glyph_outline; pen_x := 500; pen_y := 0 |}
           None "glyph out of range"%string
           eq_refl eq_refl eq_refl eq_refl).
Defined.

(** ** The scan of the typographic substitution, round by round *)

Lemma utf8_first_size (b : Z) :
  utf8_first b < 0xF0 ->
  Z.land (utf8_first b) 7 = 2 \/ Z.land (utf8_first b) 7 = 3
  \/ Z.land (utf8_first b) 7 = 4.
Proof.
  unfold utf8_first.
  repeat match goal with
         | |- context [if ?c then _ else _] => destruct c
         end; cbn; intros H; try lia; auto.
Qed.

Lemma DecodeRuneInString_size_le (s : gostring) :
  (snd (DecodeRuneInString s) <= len s)%nat.
Proof.
  unfold DecodeRuneInString.
  destruct (Nat.ltb_spec (len s) 1) as [| Hlen]; [cbn; lia |].
  destruct (Z.leb_spec 0xF0 (utf8_first (byte_at s 0))) as [| Hx].
  - destruct (_ =? _); cbn [snd]; lia.
  - apply utf8_first_size in Hx.
    destruct (Nat.ltb_spec (len s) (Z.to_nat (Z.land (utf8_first (byte_at s 0)) 7)))
      as [| Hsz]; [cbn [snd]; lia |].
    repeat match goal with
           | |- context [if (?a <=? ?b)%nat then _ else _] =>
               destruct (Nat.leb_spec a b)
           | |- context [if ?c then _ else _] => destruct c
           end; cbn [snd]; lia.
Qed.

Lemma unchanged_shape (s : gostring) (i k : nat) :
  s = firstn i s ++ firstn k (skipn i s) ++ skipn (i + k) s.
Proof.
  rewrite Nat.add_comm, <- skipn_skipn, firstn_skipn, firstn_skipn.
  reflexivity.
Qed.

Lemma quoteReplace_shape (s : gostring) (i : nat) (prev quote next : rune)
  (isOpen : bool) :
  (i < len s)%nat ->
  exists target,
    fst (fst (quoteReplace s i prev quote next isOpen))
    = firstn i s ++ target ++ skipn (i + 1) s
    /\ snd (fst (quoteReplace s i prev quote next isOpen)) = len target
    /\ (1 <= len target <= 3)%nat.
Proof.
  intros Hi. unfold quoteReplace, stringReplace.
  repeat match goal with
         | |- context [if ?c then _ else _] => destruct c
         end; cbn [fst snd];
    try (eexists; split; [reflexivity |]; cbn; split; [reflexivity | lia]).
  exists (firstn 1 (skipn i s)). split; [apply unchanged_shape |].
  rewrite length_firstn, length_skipn. lia.
Qed.

(** Splits the guard of a taken branch into its bounds. *)
Ltac guard_bounds :=
  repeat match goal with
         | H : _ && _ = true |- _ =>
             apply andb_prop in H; destruct H
         end;
  repeat match goal with
         | H : (_ <? _)%nat = true |- _ => apply Nat.ltb_lt in H
         end.

(** The shape of a round that continues: it replaces the [n >= 1] bytes at
    its position by a target of at most [3 * n] bytes (the bytes themselves
    when no rule applies), touches nothing else, and sets the next position
    right after the target. *)
Lemma iteration_shape (st st' : scanner) :
  iteration st = Continue st' ->
  exists (n : nat) (target : gostring),
    (1 <= n)%nat
    /\ (position st + n <= len (scan_s st))%nat
    /\ scan_s st'
       = firstn (position st) (scan_s st) ++ target
         ++ skipn (position st + n) (scan_s st)
    /\ position st' = (position st + len target)%nat
    /\ (1 <= len target <= 3 * n)%nat
    /\ (3 * n <= 5 * len target)%nat.
Proof.
  unfold iteration, position.
  set (i := (scan_i st + scan_size st)%nat). set (s := scan_s st).
  destruct (Nat.leb_spec (len s) i) as [| Hi]; [discriminate |].
  pose proof (DecodeRuneInString_size (skipn i s)) as Hsize.
  pose proof (DecodeRuneInString_size_le (skipn i s)) as Hle.
  destruct (DecodeRuneInString (skipn i s)) as [r size].
  cbn [snd] in Hsize, Hle. rewrite length_skipn in Hle.
  assert (Hpos : (1 <= size)%nat).
  { apply Hsize. intros Hnil.
    apply (f_equal (@List.length ascii)) in Hnil.
    rewrite length_skipn in Hnil. cbn in Hnil. lia. }
  clear Hsize.
  destruct (quoteReplace_shape s i (scan_r st) r (rune_at s (i + 1))
              (scan_inDoubleQuote st) Hi) as (td & Hd1 & Hd2 & Hd3).
  destruct (quoteReplace_shape s i (scan_r st) r (rune_at s (i + 1))
              (scan_inSingleQuote st) Hi) as (ts & Hs1 & Hs2 & Hs3).
  destruct (quoteReplace s i (scan_r st) r (rune_at s (i + 1))
              (scan_inDoubleQuote st)) as [resd opend].
  destruct (quoteReplace s i (scan_r st) r (rune_at s (i + 1))
              (scan_inSingleQuote st)) as [ress opens].
  cbn [fst snd] in Hd1, Hd2, Hs1, Hs2.
  repeat match goal with
         | |- context [if ?c then _ else _] => destruct c eqn:?
         end;
    intros Hst; injection Hst as <-; guard_bounds;
    cbn [scan_s scan_i scan_size];
    first
      [ match goal with
        | |- context [firstn i s ++ ?a :: ?b :: ?c :: skipn (i + ?n) s] =>
            exists n, [a; b; c]; repeat split; try reflexivity; cbn; lia
        | |- context [firstn i s ++ ?a :: ?b :: skipn (i + ?n) s] =>
            exists n, [a; b]; repeat split; try reflexivity; cbn; lia
        end
      | exists 1%nat, td; rewrite Hd1, Hd2; repeat split; lia
      | exists 1%nat, ts; rewrite Hs1, Hs2; repeat split; lia
      | exists size, (firstn size (skipn i s));
        rewrite length_firstn, length_skipn;
        repeat split; try lia; apply unchanged_shape ].
Qed.

Lemma iteration_break (st st' : scanner) :
  iteration st = Break st' ->
  (len (scan_s st) <= position st)%nat
  /\ scan_s st' = scan_s st
  /\ scan_inSingleQuote st' = scan_inSingleQuote st
  /\ scan_inDoubleQuote st' = scan_inDoubleQuote st.
Proof.
  unfold iteration, position.
  destruct (Nat.leb_spec (len (scan_s st)) (scan_i st + scan_size st))
    as [Hle |].
  - intros H. injection H as <-. now repeat split.
  - destruct (DecodeRuneInString _) as [r size].
    destruct (quoteReplace _ _ _ _ _ (scan_inDoubleQuote st)) as [resd opend].
    destruct (quoteReplace _ _ _ _ _ (scan_inSingleQuote st)) as [ress opens].
    repeat match goal with
           | |- context [if ?c then _ else _] => destruct c
           end; discriminate.
Qed.

Lemma is_byte_skipn_add (s : gostring) (i k : nat) (c : ascii) :
  is_byte s (i + k) c = is_byte (skipn i s) k c.
Proof. unfold is_byte. now rewrite nth_error_skipn. Qed.

Lemma forallb_skipn {A} (P : A -> bool) (n : nat) (l : list A) :
  forallb P l = true -> forallb P (skipn n l) = true.
Proof.
  intros H. rewrite <- (firstn_skipn n l), forallb_app in H.
  now apply andb_prop in H.
Qed.

Lemma is_byte_forallb (P : ascii -> bool) (l : gostring) (k : nat)
  (c : ascii) :
  forallb P l = true -> P c = false -> is_byte l k c = false.
Proof.
  intros Hall Hc. unfold is_byte.
  destruct (nth_error l k) as [b |] eqn:Hb; [| reflexivity].
  apply nth_error_In in Hb. rewrite forallb_forall in Hall.
  specialize (Hall b Hb).
  destruct (Ascii.eqb_spec b c) as [-> |]; [congruence | reflexivity].
Qed.

(** What is left to scan after a round is a suffix of what was left to scan
    before it. *)
Lemma remainder_after_round (st st' : scanner) :
  iteration st = Continue st' ->
  exists n, (1 <= n)%nat
    /\ skipn (position st') (scan_s st')
       = skipn n (skipn (position st) (scan_s st)).
Proof.
  intros Hround.
  destruct (iteration_shape _ _ Hround)
    as (n & target & Hn & Hlen & Hs & Hpos & _).
  exists n. split; [exact Hn |].
  rewrite Hs, Hpos, skipn_skipn.
  rewrite skipn_app, length_firstn.
  replace (Nat.min (position st) (len (scan_s st))) with (position st) by lia.
  rewrite (skipn_all2 (firstn _ _)) by (rewrite length_firstn; lia).
  cbn [app].
  replace (position st + len target - position st)%nat with (len target)
    by lia.
  rewrite skipn_app, Nat.sub_diag, skipn_all. cbn [app skipn].
  now rewrite Nat.add_comm.
Qed.

(** X7. The scan only moves forward: a round that continues advances the
    position, leaves every byte before its position as it is, and leaves a
    suffix of the unscanned text to scan; so the result of the loop agrees
    with the text of any state it went through on all bytes before that
    state's position. *)
Theorem scan_moves_forward :
  (forall st st', iteration st = Continue st' ->
     (position st < position st')%nat
     /\ firstn (position st) (scan_s st')
        = firstn (position st) (scan_s st)
     /\ exists n, (1 <= n)%nat
          /\ skipn (position st') (scan_s st')
             = skipn n (skipn (position st) (scan_s st)))
  /\ (forall rounds st st', scan_loop rounds st = Some st' ->
        firstn (position st) (scan_s st')
        = firstn (position st) (scan_s st)).
Proof.
  assert (Hround : forall st st', iteration st = Continue st' ->
     (position st < position st')%nat
     /\ firstn (position st) (scan_s st')
        = firstn (position st) (scan_s st)
     /\ exists n, (1 <= n)%nat
          /\ skipn (position st') (scan_s st')
             = skipn n (skipn (position st) (scan_s st))).
  { intros st st' H.
    destruct (iteration_shape _ _ H)
      as (n & target & Hn & Hlen & Hs & Hpos & Htarget & _).
    split; [lia |]. split; [| now apply remainder_after_round].
    rewrite Hs, firstn_app, length_firstn.
    replace (position st - Nat.min (position st) (len (scan_s st)))%nat
      with 0%nat by lia.
    cbn [firstn]. now rewrite app_nil_r, firstn_firstn, Nat.min_id. }
  split; [exact Hround |].
  induction rounds as [| rounds IH]; intros st st' Hrun; [discriminate |].
  cbn [scan_loop] in Hrun.
  destruct (iteration st) as [st1 | st1] eqn:H1.
  - injection Hrun as <-. apply iteration_break in H1.
    destruct H1 as (_ & -> & _). reflexivity.
  - destruct (Hround _ _ H1) as (Hlt & Hkeep & _).
    apply IH in Hrun.
    rewrite <- Hkeep.
    rewrite <- (Nat.min_l (position st) (position st1)) by lia.
    rewrite <- !firstn_firstn. now rewrite Hrun.
Qed.

Lemma scan_loop_length (rounds : nat) :
  forall st st',
    scan_loop rounds st = Some st' ->
    (position st <= len (scan_s st))%nat ->
    (len (scan_s st') <= position st + 3 * remaining st)%nat
    /\ (5 * position st + 3 * remaining st <= 5 * len (scan_s st'))%nat.
Proof.
  induction rounds as [| rounds IH]; intros st st' Hrun Hinv; [discriminate |].
  cbn [scan_loop] in Hrun.
  destruct (iteration st) as [st1 | st1] eqn:H1.
  - injection Hrun as <-. apply iteration_break in H1.
    destruct H1 as (Hle & -> & _). unfold remaining. lia.
  - destruct (iteration_shape _ _ H1)
      as (n & target & Hn & Hlen & Hs & Hpos & Htarget & Hlow).
    assert (Hlen1 : len (scan_s st1)
                    = (position st + len target
                       + (len (scan_s st) - (position st + n)))%nat).
    { rewrite Hs, !length_app, length_firstn, length_skipn. lia. }
    apply IH in Hrun; [| lia]. unfold remaining in *.
    rewrite Hlen1, Hpos in Hrun. lia.
Qed.

(** X8. The text that [substituteTypography] returns is at most three times
    as long as its input, in bytes, and at least three fifths as long: so it
    is empty only for the empty input. *)
Theorem substituteTypography_length (f : Font) (s out : gostring)
  (inSingleQuote inDoubleQuote single double : bool) :
  substituteTypography f s inSingleQuote inDoubleQuote
  = Some (out, single, double) ->
  (len out <= 3 * len s)%nat /\ (3 * len s <= 5 * len out)%nat.
Proof.
  unfold substituteTypography, substituteTypography_within.
  destruct (typography f).
  - destruct scan_loop as [st' |] eqn:Hrun; [| discriminate].
    intros H. injection H as <- _ _.
    apply scan_loop_length in Hrun; [| cbn; lia].
    unfold remaining, position in Hrun. cbn in Hrun. lia.
  - intros H. injection H as <- _ _. lia.
Qed.

(** Three quotes in a row: each byte becomes three, the bound is reached. *)
Lemma substituteTypography_length_witness :
  substituteTypography typographic (go "'''") false false
  = Some (right_single ++ left_single ++ right_single, false, false)
  /\ (len (right_single ++ left_single ++ right_single) <= 3 * len (go "'''")
      /\ 3 * len (go "'''")
         <= 5 * len (right_single ++ left_single ++ right_single))%nat.
Proof.
  assert (Hrun : substituteTypography typographic (go "'''") false false
                 = Some (right_single ++ left_single ++ right_single,
                         false, false)) by reflexivity.
  split; [exact Hrun |].
  exact (substituteTypography_length _ _ _ _ _ _ _ Hrun).
Defined.

(** A per-byte property of the unscanned text survives every round. *)
Lemma remainder_forallb (P : ascii -> bool) (st st' : scanner) :
  iteration st = Continue st' ->
  forallb P (skipn (position st) (scan_s st)) = true ->
  forallb P (skipn (position st') (scan_s st')) = true.
Proof.
  intros Hround Hall.
  destruct (remainder_after_round _ _ Hround) as (n & _ & ->).
  now apply forallb_skipn.
Qed.

(** The flag of a kind of quote changes only in a round that stands on a
    quote of that kind. *)
Lemma iteration_flags (st st' : scanner) :
  iteration st = Continue st' ->
  (is_byte (scan_s st) (position st) double_quote = false ->
   scan_inDoubleQuote st' = scan_inDoubleQuote st)
  /\ (is_byte (scan_s st) (position st) single_quote = false ->
      scan_inSingleQuote st' = scan_inSingleQuote st).
Proof.
  unfold iteration, position.
  destruct (len (scan_s st) <=? scan_i st + scan_size st)%nat;
    [discriminate |].
  destruct (DecodeRuneInString _) as [r size].
  destruct (quoteReplace _ _ _ _ _ (scan_inDoubleQuote st)) as [resd opend].
  destruct (quoteReplace _ _ _ _ _ (scan_inSingleQuote st)) as [ress opens].
  destruct (is_byte (scan_s st) (scan_i st + scan_size st) double_quote);
    destruct (is_byte (scan_s st) (scan_i st + scan_size st) single_quote);
    cbn [orb];
    repeat match goal with
           | |- context [if ?c then _ else _] => destruct c
           end;
    intros Hst; injection Hst as <-; cbn;
    split; intros H; first [reflexivity | discriminate H].
Qed.

Lemma scan_loop_flags (P : ascii -> bool) (rounds : nat) :
  forall st st',
    scan_loop rounds st = Some st' ->
    forallb P (skipn (position st) (scan_s st)) = true ->
    (P double_quote = false ->
     scan_inDoubleQuote st' = scan_inDoubleQuote st)
    /\ (P single_quote = false ->
        scan_inSingleQuote st' = scan_inSingleQuote st).
Proof.
  induction rounds as [| rounds IH]; intros st st' Hrun Hall; [discriminate |].
  cbn [scan_loop] in Hrun.
  destruct (iteration st) as [st1 | st1] eqn:H1.
  - injection Hrun as <-. apply iteration_break in H1.
    destruct H1 as (_ & _ & -> & ->). now split.
  - destruct (iteration_flags _ _ H1) as [Hd Hs].
    pose proof (remainder_forallb P _ _ H1 Hall) as Hall1.
    destruct (IH _ _ Hrun Hall1) as [Hd1 Hs1].
    split; intros HP.
    + rewrite Hd1 by exact HP. apply Hd.
      rewrite <- (Nat.add_0_r (position st)), is_byte_skipn_add.
      now apply (is_byte_forallb P).
    + rewrite Hs1 by exact HP. apply Hs.
      rewrite <- (Nat.add_0_r (position st)), is_byte_skipn_add.
      now apply (is_byte_forallb P).
Qed.

(** X9. A quote flag that goes into [substituteTypography] comes out
    unchanged when the text holds no quote of its kind: the double-quote
    flag when there is no double quote byte, the single-quote flag when
    there is no single quote byte. *)
Theorem substituteTypography_keeps_flags (f : Font) (s out : gostring)
  (inSingleQuote inDoubleQuote single double : bool) :
  substituteTypography f s inSingleQuote inDoubleQuote
  = Some (out, single, double) ->
  (forallb (fun c => negb (Ascii.eqb c double_quote)) s = true ->
   double = inDoubleQuote)
  /\ (forallb (fun c => negb (Ascii.eqb c single_quote)) s = true ->
      single = inSingleQuote).
Proof.
  unfold substituteTypography, substituteTypography_within.
  destruct (typography f).
  - destruct scan_loop as [st' |] eqn:Hrun; [| discriminate].
    intros H. injection H as _ <- <-.
    split; intros Hall.
    + apply (scan_loop_flags _ _ _ _ Hrun Hall). reflexivity.
    + apply (scan_loop_flags _ _ _ _ Hrun Hall). reflexivity.
  - intros H. injection H as _ <- <-. now split.
Qed.

Lemma substituteTypography_keeps_flags_witness :
  (substituteTypography typographic (go "it's 1870--1880") true true
   = Some (go "it" ++ right_single ++ go "s 1870" ++ en_dash ++ go "1880",
           false, true)
   /\ forallb (fun c => negb (Ascii.eqb c double_quote))
        (go "it's 1870--1880") = true)
  /\ true = true.
Proof.
  assert (Hrun : substituteTypography typographic (go "it's 1870--1880")
                   true true
                 = Some (go "it" ++ right_single ++ go "s 1870" ++ en_dash
                         ++ go "1880", false, true)) by reflexivity.
  split; [split; [exact Hrun | reflexivity] |].
  exact (proj1 (substituteTypography_keeps_flags _ _ _ _ _ _ _ Hrun)
           eq_refl).
Defined.

(** A round on text without trigger bytes changes nothing. *)
Lemma iteration_plain (st st' : scanner) :
  forallb (fun c => negb (trigger c)) (skipn (position st) (scan_s st))
  = true ->
  iteration st = Continue st' ->
  scan_s st' = scan_s st
  /\ scan_inSingleQuote st' = scan_inSingleQuote st
  /\ scan_inDoubleQuote st' = scan_inDoubleQuote st.
Proof.
  intros Hall. unfold iteration.
  fold (position st). set (i := position st) in *. set (s := scan_s st) in *.
  assert (Hno : forall k c, trigger c = true -> is_byte s (i + k) c = false).
  { intros k c Hc. rewrite is_byte_skipn_add.
    apply (is_byte_forallb _ _ _ _ Hall). now rewrite Hc. }
  pose proof (Hno 0%nat) as Hno0. rewrite Nat.add_0_r in Hno0.
  destruct (len s <=? i)%nat; [discriminate |].
  destruct (DecodeRuneInString (skipn i s)) as [r size].
  rewrite !(Hno0 "."%char eq_refl), !(Hno0 "-"%char eq_refl),
    !(Hno0 "("%char eq_refl), (Hno0 double_quote eq_refl),
    (Hno0 single_quote eq_refl), (Hno 1%nat "/"%char eq_refl).
  rewrite ?andb_false_r. cbn [andb orb].
  intros H. injection H as <-. now repeat split.
Qed.

Lemma scan_loop_plain (rounds : nat) :
  forall st st',
    scan_loop rounds st = Some st' ->
    forallb (fun c => negb (trigger c)) (skipn (position st) (scan_s st))
    = true ->
    scan_s st' = scan_s st
    /\ scan_inSingleQuote st' = scan_inSingleQuote st
    /\ scan_inDoubleQuote st' = scan_inDoubleQuote st.
Proof.
  induction rounds as [| rounds IH]; intros st st' Hrun Hall; [discriminate |].
  cbn [scan_loop] in Hrun.
  destruct (iteration st) as [st1 | st1] eqn:H1.
  - injection Hrun as <-. apply iteration_break in H1.
    destruct H1 as (_ & -> & -> & ->). now repeat split.
  - pose proof (remainder_forallb _ _ _ H1 Hall) as Hall1.
    destruct (iteration_plain _ _ Hall H1) as (Hs & Hsq & Hdq).
    destruct (IH _ _ Hrun Hall1) as (Hs1 & Hsq1 & Hdq1).
    rewrite Hs1, Hsq1, Hdq1. now repeat split.
Qed.

(** X10. Text that holds none of the bytes full stop, hyphen, opening
    parenthesis, double quote, single quote and slash passes through
    [substituteTypography] unchanged, with the quote flags it came with;
    this covers every other byte sequence, malformed UTF-8 included. *)
Theorem substituteTypography_plain_text (f : Font) (s : gostring)
  (inSingleQuote inDoubleQuote : bool) :
  forallb (fun c => negb (trigger c)) s = true ->
  substituteTypography f s inSingleQuote inDoubleQuote
  = Some (s, inSingleQuote, inDoubleQuote).
Proof.
  intros Hall. unfold substituteTypography, substituteTypography_within.
  destruct (typography f); [| reflexivity].
  set (st0 := {| scan_s := s; scan_i := 0; scan_size := 0; scan_r := 0;
                 scan_inSingleQuote := inSingleQuote;
                 scan_inDoubleQuote := inDoubleQuote |}).
  destruct (scan_loop_breaks (S (len s)) st0) as [st' Hrun].
  { unfold remaining, position. cbn. lia. }
  rewrite Hrun.
  destruct (scan_loop_plain _ _ _ Hrun Hall) as (-> & -> & ->).
  reflexivity.
Qed.

Lemma substituteTypography_plain_text_witness :
  forallb (fun c => negb (trigger c))
    (go "caf" ++ bytes [0xC3; 0xA9; 0xFF] ++ go " & 3+4") = true
  /\ substituteTypography typographic
       (go "caf" ++ bytes [0xC3; 0xA9; 0xFF] ++ go " & 3+4") false true
     = Some (go "caf" ++ bytes [0xC3; 0xA9; 0xFF] ++ go " & 3+4", false, true).
Proof.
  split; [reflexivity |].
  apply (substituteTypography_plain_text typographic
           (go "caf" ++ bytes [0xC3; 0xA9; 0xFF] ++ go " & 3+4") false true).
  reflexivity.
Defined.

(** ** The character classes and the direction of quotes *)

Lemma ispunct_ranges (r : rune) :
  ispunct r = true <->
  33 <= r <= 47 \/ 58 <= r <= 64 \/ 91 <= r <= 96 \/ 123 <= r <= 126.
Proof.
  assert (Hin : ispunct r = true <-> In r punctuation).
  { unfold ispunct. rewrite existsb_exists. split.
    - intros (c & Hc & Heq). apply Z.eqb_eq in Heq. now subst.
    - intros H. exists r. split; [exact H | apply Z.eqb_refl]. }
  rewrite Hin.
  cbv [punctuation go list_ascii_of_string map byteval]. cbn [In].
  cbn. lia.
Qed.

Lemma ispunct_not_space (r : rune) :
  ispunct r = true -> isspace r = false /\ r <> 0.
Proof.
  intros Hp. apply ispunct_ranges in Hp. split; [| lia].
  unfold isspace, IsSpace.
  destruct ((0 <=? r) && (r <=? 255)) eqn:Hlatin.
  - repeat match goal with
           | |- context [(?a <=? ?b)] => destruct (Z.leb_spec a b)
           | |- context [(?a =? ?b)] => destruct (Z.eqb_spec a b)
           end; cbn; try reflexivity; lia.
  - apply andb_false_iff in Hlatin.
    destruct Hlatin as [H | H]; apply Z.leb_gt in H; lia.
Qed.

(** X11. [ispunct] holds exactly of the thirty-two ASCII punctuation
    characters: the code points 33 to 47, 58 to 64, 91 to 96 and 123 to
    126; none of them is a space for [isspace], and none is 0. *)
Theorem ispunct_ascii_punctuation (r : rune) :
  (ispunct r = true <->
   33 <= r <= 47 \/ 58 <= r <= 64 \/ 91 <= r <= 96 \/ 123 <= r <= 126)
  /\ (ispunct r = true -> isspace r = false /\ r <> 0).
Proof. split; [apply ispunct_ranges | apply ispunct_not_space]. Qed.

(** X12. The switch of [quoteReplace] depends on the rune before and the
    rune after the quote only through their kind (nothing, space,
    punctuation, other): the flag is toggled when both are nothing, both
    spaces or both punctuation; it is set (the quote opens) after a space
    when nothing or punctuation follows, and before any other character
    unless another such character precedes; in every remaining case it is
    cleared (the quote closes). *)
Theorem quote_direction_by_kind (prev next : rune) (isOpen : bool) :
  quote_direction prev next isOpen
  = direction (classify prev) (classify next) isOpen.
Proof.
  pose proof (ispunct_not_space prev) as Hp.
  pose proof (ispunct_not_space next) as Hn.
  unfold quote_direction, classify.
  destruct (Z.eqb_spec prev 0) as [-> | Hp0];
    destruct (Z.eqb_spec next 0) as [-> | Hn0];
    try (change (isspace 0) with false);
    try (change (ispunct 0) with false);
    cbn [andb direction negb];
    try reflexivity.
  - destruct (isspace next), (ispunct next); reflexivity.
  - destruct (isspace prev), (ispunct prev); reflexivity.
  - destruct (isspace prev) eqn:Hsp, (ispunct prev) eqn:Hpp;
      destruct (isspace next) eqn:Hsn, (ispunct next) eqn:Hpn;
      cbn; try reflexivity;
      first [ destruct (Hp eq_refl); discriminate
            | destruct (Hn eq_refl); discriminate ].
Qed.

(** ** Typographic options *)

Lemma fold_keep_supported (f : FontObject) (l : list textSubstitution) :
  forall acc,
    fold_left (keep_supported f) l acc
    = acc ++ filter (fun stn => has_glyph f (dst stn)) l.
Proof.
  induction l as [| stn l IH]; intros acc; cbn [fold_left filter].
  - now rewrite app_nil_r.
  - rewrite IH. unfold keep_supported, has_glyph.
    destruct (GlyphIndex (font_sfnt f) (dst stn)).
    + now rewrite <- app_assoc.
    + reflexivity.
Qed.

Lemma supportedSubstitutions_filter (f : FontObject)
  (l : list textSubstitution) :
  supportedSubstitutions f l = filter (fun stn => has_glyph f (dst stn)) l.
Proof. unfold supportedSubstitutions. now rewrite fold_keep_supported. Qed.

(** X13. [supportedSubstitutions] returns, in the order given, exactly the
    rules whose replacement rune has a glyph in the font: nothing is added
    or reordered, and applying it to its own result changes nothing. *)
Theorem supportedSubstitutions_filters (f : FontObject)
  (substitutions : list textSubstitution) :
  supportedSubstitutions f substitutions
  = filter (fun stn => has_glyph f (dst stn)) substitutions
  /\ (forall stn, In stn (supportedSubstitutions f substitutions) <->
        In stn substitutions /\ has_glyph f (dst stn) = true)
  /\ supportedSubstitutions f (supportedSubstitutions f substitutions)
     = supportedSubstitutions f substitutions.
Proof.
  pose proof (supportedSubstitutions_filter f) as Heq.
  split; [apply Heq |]. split.
  - intros stn. rewrite Heq. apply filter_In.
  - rewrite !Heq.
    induction substitutions as [| stn l IH]; cbn [filter]; [reflexivity |].
    destruct (has_glyph f (dst stn)) eqn:Hg; [| exact IH].
    cbn [filter]. now rewrite Hg, IH.
Qed.

Lemma Use_typography (options : Z) (f : FontObject) :
  typography (font_settings f) = true ->
  typography (font_settings (Use options f)) = true.
Proof.
  intros Hon. unfold Use. cbn [font_settings typography].
  now destruct (Z.land options NoTypography =? 0).
Qed.

(** X14. [Use] can switch the typographic substitutions on but never off:
    they are on after [Use] when its options lack the NoTypography bit or
    when they were on before.  As [parseFont] ends with [Use(0)], a parsed
    font has them on, and they stay on through any later calls of [Use],
    with NoTypography or not. *)
Theorem Use_never_disables_typography :
  (forall options f,
      typography (font_settings (Use options f))
      = (Z.land options NoTypography =? 0)
        || typography (font_settings f))
  /\ (forall parsed later,
        typography (font_settings
          (fold_left (fun f options => Use options f) later
             (parseFont_setup parsed))) = true).
Proof.
  split.
  - intros options f. unfold Use. cbn [font_settings typography].
    now destruct (Z.land options NoTypography =? 0).
  - intros parsed later.
    assert (Hstart : typography (font_settings (parseFont_setup parsed))
                     = true) by reflexivity.
    revert Hstart. generalize (parseFont_setup parsed) as f.
    induction later as [| options later IH]; intros f Hf; cbn [fold_left].
    + exact Hf.
    + apply IH. now apply Use_typography.
Qed.

Lemma supportedSubstitutions_sfnt (f g : FontObject)
  (l : list textSubstitution) :
  font_sfnt f = font_sfnt g ->
  supportedSubstitutions f l = supportedSubstitutions g l.
Proof.
  intros Hsfnt.
  rewrite !supportedSubstitutions_filter.
  unfold has_glyph. now rewrite Hsfnt.
Qed.

(** X15. Every call of [Use] replaces the ligature list: after it the list
    holds the rules of [commonLigatures] whose ligature has a glyph in the
    font when the options have the CommonLigatures bit, and is empty
    otherwise, whatever earlier calls had set; the superscript and subscript
    lists and the parsed font are left alone.  A parsed font starts without
    ligatures. *)
Theorem Use_replaces_ligatures :
  (forall options f,
      font_ligatures (Use options f)
      = (if Z.land options CommonLigatures =? 0 then []
         else filter (fun stn => has_glyph f (dst stn)) commonLigatures)
      /\ font_sfnt (Use options f) = font_sfnt f
      /\ font_superscript (Use options f) = font_superscript f
      /\ font_subscript (Use options f) = font_subscript f)
  /\ (forall earlier options f,
        font_ligatures (Use options (Use earlier f))
        = font_ligatures (Use options f))
  /\ (forall parsed, font_ligatures (parseFont_setup parsed) = []).
Proof.
  split; [| split].
  - intros options f. unfold Use.
    cbn [font_ligatures font_sfnt font_superscript font_subscript].
    rewrite supportedSubstitutions_filter.
    destruct (Z.land options CommonLigatures =? 0); now repeat split.
  - intros earlier options f. unfold Use at 1 3. cbn [font_ligatures].
    now rewrite (supportedSubstitutions_sfnt (Use earlier f) f).
  - reflexivity.
Qed.

(** ** Boldness and text width *)

Lemma has_style_masked (style mask flag : Z) :
  Z.land style mask = 0 -> Z.land mask flag = flag -> flag <> 0 ->
  has_style style flag = false.
Proof.
  intros Hmask Hflag Hnz. unfold has_style.
  rewrite <- Hflag, Z.land_assoc, Hmask, Z.land_0_l.
  apply Z.eqb_neq. congruence.
Qed.

Section WidthFacts.
Context {num : Numeric}.
Local Open Scope f64_scope.

(** X16. [Boldness] is always a multiple of 100 between 100 and 1000; for a
    subscript or superscript variant it is at least 400; and a style
    without any weight bit (regular or italic) has boldness 400, or 700 as
    a subscript or superscript. *)
Theorem Boldness_range (ff : FontFace) :
  (100 <= Boldness ff <= 1000)%Z
  /\ (Boldness ff mod 100 = 0)%Z
  /\ (Z.land (Variant ff) FontSubscript <> 0
      \/ Z.land (Variant ff) FontSuperscript <> 0 ->
      400 <= Boldness ff)%Z
  /\ (Z.land (Style ff) 2040 = 0 ->
      Boldness ff
      = if negb (Z.land (Variant ff) FontSubscript =? 0)
           || negb (Z.land (Variant ff) FontSuperscript =? 0)
        then 700 else 400)%Z.
Proof.
  unfold Boldness.
  split; [| split; [| split]].
  - repeat match goal with
           | |- context [has_style ?a ?b] => destruct (has_style a b)
           end;
      destruct (negb _ || negb _); cbn; lia.
  - repeat match goal with
           | |- context [has_style ?a ?b] => destruct (has_style a b)
           end;
      destruct (negb _ || negb _); reflexivity.
  - intros Hvar.
    assert (Hsub : negb (Z.land (Variant ff) FontSubscript =? 0)%Z
                   || negb (Z.land (Variant ff) FontSuperscript =? 0)%Z
                   = true).
    { destruct Hvar as [H | H]; apply Z.eqb_neq in H; rewrite H;
        [reflexivity | apply orb_true_r]. }
    rewrite Hsub.
    repeat match goal with
           | |- context [has_style ?a ?b] => destruct (has_style a b)
           end; cbn; lia.
  - intros Hplain.
    rewrite !(has_style_masked _ 2040 _ Hplain)
      by (reflexivity || discriminate).
    destruct (_ || _); reflexivity.
Qed.

Section ToPathWidth.
Variable toI26_6 : float64 -> Z.
Variable fromI26_6 : Z -> float64.
Variable Point_Equals : Point -> Point -> bool.
Variable Empty : Path -> bool.
Variable Offset : Path -> float64 -> Path.
Variable sfnt_of : pointer -> sfntFont.

Lemma ToPath_loop_width (ff : FontFace) (runes : list (nat * rune)) :
  forallb (fun ir => loads (sfnt_of (Font_ ff))
                       (toI26_6 (Size ff * Scale ff)) (snd ir)) runes
  = true ->
  forall (st : layout),
    snd (ToPath_loop toI26_6 fromI26_6 Point_Equals Empty Offset sfnt_of ff
           runes st)
    = TextWidth_loop toI26_6 fromI26_6 sfnt_of ff runes
        {| w := lay_x st; w_prevIndex := prevIndex st |}.
Proof.
  induction runes as [| [i r] runes IH]; intros Hall st;
    cbn [ToPath_loop TextWidth_loop].
  - reflexivity.
  - cbn [forallb snd] in Hall. apply andb_prop in Hall.
    destruct Hall as [Hr Hrest]. unfold loads in Hr.
    destruct GlyphIndex as [index | err]; [| discriminate].
    destruct LoadGlyph as [segments | err]; [| discriminate].
    rewrite (IH Hrest). unfold place_rune. cbn [lay_x prevIndex w w_prevIndex].
    reflexivity.
Qed.

(** X17. On a string all of whose runes load, the advance that [ToPath]
    returns is the width that [TextWidth] measures: the same kernings and
    advances, added in the same order. *)
Theorem ToPath_advance_is_TextWidth (ff : FontFace) (s : gostring) :
  forallb (fun ir => loads (sfnt_of (Font_ ff))
                       (toI26_6 (Size ff * Scale ff)) (snd ir))
    (range_string s) = true ->
  snd (ToPath toI26_6 fromI26_6 Point_Equals Empty Offset sfnt_of ff s)
  = TextWidth toI26_6 fromI26_6 sfnt_of ff s.
Proof.
  intros Hall. unfold ToPath, TextWidth.
  now rewrite (ToPath_loop_width ff _ Hall).
Qed.

End ToPathWidth.
End WidthFacts.

Lemma ToPath_advance_is_TextWidth_witness :
  forallb (fun ir => loads (sample_sfnt_of (Font_ sample_face))
                       (sample_toI26_6
                          (fmul (Size sample_face) (Scale sample_face)))
                       (snd ir))
    (range_string (go "TYPE")) = true
  /\ snd (sample_ToPath (go "TYPE")) = sample_TextWidth (go "TYPE")
  /\ sample_TextWidth (go "TYPE") = fl 40.
Proof.
  split; [reflexivity |]. split; [| reflexivity].
  apply (ToPath_advance_is_TextWidth sample_toI26_6 sample_fromI26_6
           sample_Point_Equals sample_Empty sample_Offset sample_sfnt_of
           sample_face (go "TYPE")).
  reflexivity.
Defined.

(** ** The scan as a whole: where it stands in the input *)

(** *** Ranging over a text *)

Lemma range_from_fuel (n : nat) :
  forall (m i : nat) (s : gostring),
    (len s <= n)%nat -> (len s <= m)%nat ->
    range_from n i s = range_from m i s.
Proof.
  induction n as [| n IH]; intros m i s Hn Hm.
  - destruct s; [| cbn in Hn; lia]. destruct m; reflexivity.
  - destruct m as [| m]; [destruct s; [reflexivity | cbn in Hm; lia] |].
    cbn [range_from]. destruct s as [| c s'] eqn:Hs; [reflexivity |].
    rewrite <- Hs in *.
    pose proof (DecodeRuneInString_size s) as Hsize.
    destruct (DecodeRuneInString s) as [r size]. cbn [snd] in Hsize.
    assert (Hpos : (1 <= size)%nat) by (apply Hsize; now rewrite Hs).
    f_equal. apply IH; rewrite length_skipn; lia.
Qed.

Lemma range_from_indices (n : nat) :
  forall (i : nat) (s : gostring),
    Forall (fun ir => (i <= fst ir)%nat) (range_from n i s).
Proof.
  induction n as [| n IH]; intros i s; cbn [range_from]; [constructor |].
  destruct s as [| c s']; [constructor |].
  destruct (DecodeRuneInString (c :: s')) as [r size].
  constructor; [cbn; lia |].
  eapply Forall_impl; [| apply IH]. cbn. intros ir Hir. lia.
Qed.

Lemma rune_before_scanned (s : gostring) (k : nat) (pre : list (nat * rune)) :
  scanned s k pre -> rune_before s k = last (map snd pre) 0.
Proof.
  intros [Hsplit Hpre]. unfold rune_before. rewrite Hsplit, filter_app.
  assert (Hkeep : filter (fun ir => (fst ir <? k)%nat) pre = pre).
  { clear Hsplit. induction pre as [| ir pre IH]; [reflexivity |].
    inversion Hpre as [| ? ? Hir Hrest]; subst. cbn [filter].
    rewrite (proj2 (Nat.ltb_lt _ _) Hir). f_equal. now apply IH. }
  assert (Hdrop : forall l : list (nat * rune),
             Forall (fun ir => (k <= fst ir)%nat) l ->
             filter (fun ir => (fst ir <? k)%nat) l = []).
  { induction l as [| ir l IH]; intros Hl; [reflexivity |].
    inversion Hl as [| ? ? Hir Hrest]; subst. cbn [filter].
    rewrite (proj2 (Nat.ltb_ge _ _) Hir). now apply IH. }
  rewrite Hkeep, (Hdrop _ (range_from_indices _ _ _)), app_nil_r.
  reflexivity.
Qed.

Lemma scanned_start (s : gostring) : scanned s 0 [].
Proof. split; [reflexivity | constructor]. Qed.

(** Ranging over the text yields, at a byte where a rune starts, the rune
    decoded there, and goes on right after it. *)
Lemma scanned_step (s : gostring) (k : nat) (pre : list (nat * rune)) :
  scanned s k pre -> (k < len s)%nat ->
  scanned s (k + snd (DecodeRuneInString (skipn k s)))
    (pre ++ [(k, fst (DecodeRuneInString (skipn k s)))]).
Proof.
  intros [Hsplit Hpre] Hk.
  assert (Hne : skipn k s <> []).
  { intros Hnil. apply (f_equal (@List.length ascii)) in Hnil.
    rewrite length_skipn in Hnil. cbn in Hnil. lia. }
  pose proof (DecodeRuneInString_size _ Hne) as Hsize.
  split.
  - rewrite Hsplit, <- app_assoc. f_equal.
    rewrite (range_from_fuel (len s) (S (len s)) k (skipn k s))
      by (rewrite length_skipn; lia).
    cbn [range_from app].
    destruct (skipn k s) as [| c t] eqn:Ht; [contradiction |].
    rewrite <- Ht in *.
    destruct (DecodeRuneInString (skipn k s)) as [r size].
    cbn [fst snd] in *.
    now rewrite skipn_skipn, (Nat.add_comm size k).
  - apply Forall_app. split.
    + eapply Forall_impl; [| exact Hpre]. cbn. intros ir Hir. lia.
    + constructor; [cbn; lia | constructor].
Qed.

(** *** Decoding a rune *)

Lemma DecodeRuneInString_ascii (c : ascii) (t : gostring) :
  ascii7 c = true -> DecodeRuneInString (c :: t) = (byteval c, 1%nat).
Proof.
  unfold ascii7. intros Hc. apply Z.ltb_lt in Hc.
  unfold DecodeRuneInString, byte_at. cbn [List.length Nat.ltb Nat.leb nth].
  unfold utf8_first.
  destruct (Z.ltb_spec (byteval c) 0x80) as [_ | ?]; [reflexivity | lia].
Qed.

Lemma utf8_first_accept (b : Z) :
  utf8_first b < 0xF0 ->
  128 <= fst (acceptRanges (Z.shiftr (utf8_first b) 4)).
Proof.
  unfold utf8_first.
  repeat match goal with
         | |- context [if ?c then _ else _] => destruct c
         end; cbn; intros H; lia.
Qed.

(** The bytes of a rune after its first are continuation bytes. *)
Lemma DecodeRuneInString_continuation (s : gostring) (j : nat) :
  (1 <= j < snd (DecodeRuneInString s))%nat -> 128 <= byte_at s j.
Proof.
  unfold DecodeRuneInString.
  destruct (Nat.ltb_spec (len s) 1) as [| Hlen]; [cbn; lia |].
  destruct (Z.leb_spec 0xF0 (utf8_first (byte_at s 0))) as [| Hx].
  - destruct (_ =? _); cbn [snd]; lia.
  - pose proof (utf8_first_accept _ Hx) as Haccept.
    destruct (Nat.ltb_spec (len s)
                (Z.to_nat (Z.land (utf8_first (byte_at s 0)) 7)))
      as [| Hsz]; [cbn [snd]; lia |].
    destruct (Z.ltb_spec (byte_at s 1)
                (fst (acceptRanges (Z.shiftr (utf8_first (byte_at s 0)) 4))));
      [cbn [orb snd]; lia |].
    destruct (Z.ltb_spec
                (snd (acceptRanges (Z.shiftr (utf8_first (byte_at s 0)) 4)))
                (byte_at s 1));
      [cbn [orb snd]; lia |].
    cbn [orb].
    destruct (_ <=? 2)%nat;
      [cbn [snd]; intros Hj; assert (j = 1%nat) as -> by lia; lia |].
    destruct (Z.ltb_spec (byte_at s 2) 0x80); [cbn [orb snd]; lia |].
    destruct (Z.ltb_spec 0xBF (byte_at s 2)); [cbn [orb snd]; lia |].
    cbn [orb].
    destruct (_ <=? 3)%nat;
      [cbn [snd]; intros Hj;
       assert (j = 1 \/ j = 2)%nat as [-> | ->] by lia; lia |].
    destruct (Z.ltb_spec (byte_at s 3) 0x80); [cbn [orb snd]; lia |].
    destruct (Z.ltb_spec 0xBF (byte_at s 3)); [cbn [orb snd]; lia |].
    cbn [orb snd]. intros Hj.
    assert (j = 1 \/ j = 2 \/ j = 3)%nat as [-> | [-> | ->]] by lia; lia.
Qed.

(** Ranging over a run of ASCII bytes yields them one by one. *)
Lemma scanned_ascii_run (s pat : gostring) :
  forall (k : nat) (pre : list (nat * rune)),
    scanned s k pre -> pat <> [] -> forallb ascii7 pat = true ->
    starts_with pat (skipn k s) = true ->
    exists pre',
      scanned s (k + len pat) pre'
      /\ last (map snd pre') 0 = byteval (last pat Ascii.zero).
Proof.
  induction pat as [| c pat IH]; intros k pre Hpre Hne Hascii Hstarts;
    [contradiction |].
  cbn [forallb] in Hascii. apply andb_prop in Hascii.
  destruct Hascii as [Hc Hascii].
  destruct (skipn k s) as [| b t] eqn:Ht; [discriminate |].
  cbn [starts_with] in Hstarts. apply andb_prop in Hstarts.
  destruct Hstarts as [Hb Hstarts]. apply Ascii.eqb_eq in Hb. subst b.
  assert (Hk : (k < len s)%nat).
  { apply (f_equal (@List.length ascii)) in Ht.
    rewrite length_skipn in Ht. cbn in Ht. lia. }
  pose proof (scanned_step s k pre Hpre Hk) as Hstep.
  rewrite Ht, (DecodeRuneInString_ascii c t Hc) in Hstep.
  cbn [fst snd] in Hstep.
  assert (Hnext : skipn (k + 1) s = t).
  { rewrite Nat.add_comm, <- skipn_skipn, Ht. reflexivity. }
  destruct pat as [| c' pat'].
  - exists (pre ++ [(k, byteval c)]). split; [exact Hstep |].
    rewrite map_app. cbn [map snd]. apply last_last.
  - destruct (IH (k + 1)%nat _ Hstep ltac:(discriminate) Hascii)
      as (pre' & Hpre' & Hlast); [now rewrite Hnext |].
    exists pre'. split.
    + replace (k + len (c :: c' :: pat'))%nat
        with (k + 1 + len (c' :: pat'))%nat by (cbn; lia).
      exact Hpre'.
    + rewrite Hlast. reflexivity.
Qed.
